(** * bumblebee: the particle background system of [src/js/main.js]

    A shallow embedding of [class ParticleSystem] and of the properties
    the specification states about it.

    Numbers.  A JavaScript number is modelled by a real number: [+], [-],
    [*], [/] and [Math.sqrt] are the exact operations of [R], and the
    comparisons are those of [R] turned into booleans.  Rounding to binary64,
    infinities and NaN are outside this model.  The concrete inputs of the
    counterexamples are chosen so that binary64 arithmetic gives the same
    values, exactly; [Binary64], at the end, checks this on the kernel's
    floats.

    Randomness.  [Math.random()] reads the next element of a sequence of
    draws that is an explicit input ([Rand]).

    Effects.  The canvas is written to, never read: drawing is modelled by
    the list of commands it issues. *)

From Stdlib Require Import Reals Lra Lia List ZArith String Bool PeanoNat.
From Stdlib Require Floats.
Import ListNotations.
Open Scope R_scope.

(** ** JavaScript numbers and [Math] *)

Module Js.

Definition ltb (a b : R) : bool := if Rlt_dec a b then true else false.
Definition gtb (a b : R) : bool := ltb b a.
Definition leb (a b : R) : bool := if Rle_dec a b then true else false.

Definition Math_max (a b : R) : R := Rmax a b.
Definition Math_min (a b : R) : R := Rmin a b.
Definition Math_sqrt (a : R) : R := sqrt a.
Definition Math_floor (a : R) : Z := Zfloor a.
Definition Math_PI : R := PI.
Definition Math_cos (a : R) : R := cos a.
Definition Math_sin (a : R) : R := sin a.

(** [a[i]] on an array: [undefined] (here [None]) outside the array. *)
Definition index {A : Type} (a : list A) (i : Z) : option A :=
  match i with
  | Zneg _ => None
  | _ => nth_error a (Z.to_nat i)
  end.


(** [a.splice(start, 1)]: the array without its element at [start]. *)
Definition splice1 {A : Type} (start : nat) (a : list A) : list A :=
  firstn start a ++ skipn (S start) a.

(** The element at [i] after its object was mutated into [e]. *)
Fixpoint assign {A : Type} (i : nat) (e : A) (a : list A) : list A :=
  match a, i with
  | [], _ => []
  | _ :: t, O => e :: t
  | h :: t, S i' => h :: assign i' e t
  end.

(** [a.forEach(callback)] when the callback may change the array it
    walks: the length is read once, before the first call; index [k] is
    visited when the array still has it, and the callback sees the element
    that is at [k] by then. [callback e k a] is the array the call leaves
    behind. *)
Fixpoint forEach_loop {A : Type} (callback : A -> nat -> list A -> list A)
    (remaining k : nat) (a : list A) : list A :=
  match remaining with
  | O => a
  | S remaining' =>
      let a' :=
        match nth_error a k with
        | Some e => callback e k a
        | None => a
        end in
      forEach_loop callback remaining' (S k) a'
  end.

Definition forEach {A : Type} (callback : A -> nat -> list A -> list A)
    (a : list A) : list A :=
  forEach_loop callback (List.length a) 0 a.

Definition geb (a b : R) : bool := leb b a.
Definition Math_abs (a : R) : R := Rabs a.

End Js.

(** ** The random source *)

Module Random.

(** A computation that calls [Math.random()]: it is given the sequence of
    draws and the number of draws already made, and returns its result
    with the new count. *)
Definition Rand (A : Type) : Type := (nat -> R) -> nat -> A * nat.

Definition ret {A} (a : A) : Rand A := fun _ k => (a, k).

Definition bind {A B} (m : Rand A) (f : A -> Rand B) : Rand B :=
  fun src k => let (a, k') := m src k in f a src k'.

Definition Math_random : Rand R := fun src k => (src k, S k).

(** Every draw of the source is in [[0, 1)], as [Math.random] promises. *)
Definition unit_draws (src : nat -> R) : Prop :=
  forall k, 0 <= src k < 1.

End Random.

Notation "x <- m ;; f" := (Random.bind m (fun x => f))
  (at level 61, m at next level, right associativity).

(** ** Data *)

(** [this.mouse = { x: null, y: null }]: each field is [null] or a number. *)
Record Mouse : Type := mkMouse {
  mouse_x : option R;
  mouse_y : option R
}.

(** An element of [this.particles]. *)
Record Particle : Type := mkParticle {
  x : R;
  y : R;
  vx : R;
  vy : R;
  size : R;
  color : option string;
  opacity : R;
  pulse : R
}.

(** The part of [window] and [navigator] that the class reads. *)
Record Window : Type := mkWindow {
  innerWidth : nat;
  innerHeight : nat;
  hardwareConcurrency : option nat
}.

Record Canvas : Type := mkCanvas {
  width : R;
  height : R
}.

Definition colors : list string :=
  [ "#00f5ff"; "#bf00ff"; "#39ff14"; "#ff007f"; "#ff8c00"; "#00ffaa" ]%string.

(** ** [getParticleCount] *)

(** [navigator.hardwareConcurrency && navigator.hardwareConcurrency < 4]:
    [undefined] and [0] are falsy. *)
Definition isLowEnd (w : Window) : bool :=
  match hardwareConcurrency w with
  | None => false
  | Some 0%nat => false
  | Some n => (n <? 4)%nat
  end.

Definition getParticleCount (w : Window) : nat :=
  let isMobile := (innerWidth w <? 768)%nat in
  if isMobile || isLowEnd w then 30%nat
  else if (innerWidth w <? 1024)%nat then 50%nat
  else 80%nat.

(** ** [resizeCanvas] and [createParticles] *)

Definition resizeCanvas (w : Window) : Canvas :=
  {| width := INR (innerWidth w); height := INR (innerHeight w) |}.

(** The object literal pushed by [createParticles]; its eight calls of
    [Math.random()] happen in the order of the properties. *)
Definition newParticle (cv : Canvas) : Random.Rand Particle :=
  r1 <- Random.Math_random ;;
  r2 <- Random.Math_random ;;
  r3 <- Random.Math_random ;;
  r4 <- Random.Math_random ;;
  r5 <- Random.Math_random ;;
  r6 <- Random.Math_random ;;
  r7 <- Random.Math_random ;;
  r8 <- Random.Math_random ;;
  Random.ret
    {| x := r1 * width cv;
       y := r2 * height cv;
       vx := (r3 - 0.5) * 0.5;
       vy := (r4 - 0.5) * 0.5;
       size := r5 * 3 + 1;
       color := Js.index colors (Js.Math_floor (r6 * INR (List.length colors)));
       opacity := r7 * 0.5 + 0.3;
       pulse := r8 * 0.02 + 0.01 |}.

(** [for (let i = 0; i < this.particleCount; i++) this.particles.push(...)],
    with [n] the iterations that remain. *)
Fixpoint createParticles_loop (cv : Canvas) (n : nat) (particles : list Particle)
  : Random.Rand (list Particle) :=
  match n with
  | O => Random.ret particles
  | S n' =>
      p <- newParticle cv ;;
      createParticles_loop cv n' (particles ++ [p])
  end.

Definition createParticles (cv : Canvas) (particleCount : nat)
  : Random.Rand (list Particle) :=
  createParticles_loop cv particleCount [].

(** ** [updateParticles] *)

(** The body of the [forEach] callback of [updateParticles], one
    assignment after the other. *)
Definition updateParticle (cv : Canvas) (mouse : Mouse) (p : Particle) : Particle :=
  (* Update position *)
  let x1 := x p + vx p in
  let y1 := y p + vy p in
  (* Pulse effect *)
  let opacity1 := opacity p + pulse p in
  let pulse1 :=
    if Js.gtb opacity1 0.8 || Js.ltb opacity1 0.2 then pulse p * -1 else pulse p in
  (* Wrap around edges *)
  let x2 := if Js.ltb x1 0 then width cv else x1 in
  let x3 := if Js.gtb x2 (width cv) then 0 else x2 in
  let y2 := if Js.ltb y1 0 then height cv else y1 in
  let y3 := if Js.gtb y2 (height cv) then 0 else y2 in
  (* Mouse interaction *)
  let '(vx1, vy1) :=
    match mouse_x mouse, mouse_y mouse with
    | Some mx, Some my =>
        let dx := mx - x3 in
        let dy := my - y3 in
        let distance := Js.Math_sqrt (dx * dx + dy * dy) in
        if Js.ltb distance 100 then
          let force := (100 - distance) / 100 in
          let vxa := vx p + dx * force * 0.001 in
          let vya := vy p + dy * force * 0.001 in
          (* Limit velocity *)
          let maxVel := 2 in
          (Js.Math_max (- maxVel) (Js.Math_min maxVel vxa),
           Js.Math_max (- maxVel) (Js.Math_min maxVel vya))
        else (vx p, vy p)
    | _, _ => (vx p, vy p)
    end in
  (* Apply friction *)
  {| x := x3;
     y := y3;
     vx := vx1 * 0.99;
     vy := vy1 * 0.99;
     size := size p;
     color := color p;
     opacity := opacity1;
     pulse := pulse1 |}.

Definition updateParticles (cv : Canvas) (mouse : Mouse) (particles : list Particle)
  : list Particle :=
  map (updateParticle cv mouse) particles.

(** ** Drawing *)

(** What [drawConnections] sets on the context for one line and strokes. *)
Record Stroke : Type := mkStroke {
  stroke_globalAlpha : R;
  strokeStyle : string;
  lineWidth : R;
  moveTo : R * R;
  lineTo : R * R
}.

(** One [arc] filled by [drawParticles] or by the explosion. *)
Record Disc : Type := mkDisc {
  disc_globalAlpha : R;
  fillStyle : option string;
  shadowBlur : R;
  centre : R * R;
  radius : R
}.

Inductive Command : Type :=
| ClearRect (w h : R)
| StrokeLine (s : Stroke)
| FillArc (d : Disc).

Definition maxDistance : R := 120.

(** The body of the inner loop of [drawConnections] for the indices [i] and
    [j]: the line it strokes, if any. *)
Definition connection (particles : list Particle) (i j : nat) : option Stroke :=
  match nth_error particles i, nth_error particles j with
  | Some pi, Some pj =>
      let dx := x pi - x pj in
      let dy := y pi - y pj in
      let distance := Js.Math_sqrt (dx * dx + dy * dy) in
      if Js.ltb distance maxDistance then
        let opacity := (1 - distance / maxDistance) * 0.2 in
        Some {| stroke_globalAlpha := opacity;
                strokeStyle := "#00f5ff";
                lineWidth := 1;
                moveTo := (x pi, y pi);
                lineTo := (x pj, y pj) |}
      else None
  | _, _ => None
  end.

(** [for (i = 0; i < length; i++) for (j = i + 1; j < length; j++)]: the
    strokes in the order they are drawn, each with the pair of indices it
    was drawn for. *)
Definition drawConnections_pairs (particles : list Particle)
  : list (nat * nat * Stroke) :=
  let n := List.length particles in
  flat_map
    (fun i =>
       flat_map
         (fun j =>
            match connection particles i j with
            | Some s => [(i, j, s)]
            | None => []
            end)
         (seq (S i) (n - S i)))
    (seq 0 n).

Definition drawConnections (particles : list Particle) : list Command :=
  map (fun t => StrokeLine (snd t)) (drawConnections_pairs particles).

(** The two arcs [drawParticles] fills for one particle: the gradient disc
    and the glow. *)
Definition drawParticle (p : Particle) : list Command :=
  [ FillArc {| disc_globalAlpha := opacity p; fillStyle := color p;
               shadowBlur := 0; centre := (x p, y p); radius := size p |};
    FillArc {| disc_globalAlpha := opacity p; fillStyle := color p;
               shadowBlur := 10; centre := (x p, y p); radius := size p * 0.5 |} ].

Definition drawParticles (cv : Canvas) (particles : list Particle) : list Command :=
  ClearRect (width cv) (height cv)
  :: drawConnections particles ++ flat_map drawParticle particles.

(** ** The object and its event handlers *)

(** The fields of a [ParticleSystem]; [pauseAnimation] is [undefined]
    ([None]) until the first [visibilitychange]. [window] is the
    environment the handlers read. *)
Record ParticleSystem : Type := mkSystem {
  window : Window;
  canvas : Canvas;
  particles : list Particle;
  particleCount : nat;
  mouse : Mouse;
  pauseAnimation : option bool
}.

(** What one callback did to the outside: the commands sent to the canvas
    and whether [requestAnimationFrame] was called. *)
Record Output : Type := mkOutput {
  drawn : list Command;
  requestedFrame : bool
}.

Definition silent : Output := {| drawn := []; requestedFrame := false |}.

(** [animate()]. *)
Definition animate (s : ParticleSystem) : ParticleSystem * Output :=
  let particles1 := updateParticles (canvas s) (mouse s) (particles s) in
  ({| window := window s;
      canvas := canvas s;
      particles := particles1;
      particleCount := particleCount s;
      mouse := mouse s;
      pauseAnimation := pauseAnimation s |},
   {| drawn := drawParticles (canvas s) particles1;
      requestedFrame := true |}).

(** The constructor: [init()], then [animate()] once, then the listeners. *)
Definition construct (w : Window) : Random.Rand (ParticleSystem * Output) :=
  let particleCount0 := getParticleCount w in
  let cv := resizeCanvas w in
  ps <- createParticles cv particleCount0 ;;
  Random.ret
    (animate {| window := w;
                canvas := cv;
                particles := ps;
                particleCount := particleCount0;
                mouse := {| mouse_x := None; mouse_y := None |};
                pauseAnimation := None |}).

(** The callbacks the host can run on the object. [Scroll] carries
    [window.pageYOffset] and [document.body.scrollHeight]; a page that
    cannot scroll ([scrollHeight = innerHeight]) makes the source divide by
    zero, which this model of numbers does not describe. *)
Inductive Event : Type :=
| Frame
| MouseMove (clientX clientY : R)
| MouseLeave
| Resize (w : Window)
| Scroll (pageYOffset scrollHeight : R)
| VisibilityChange (hidden : bool).

Definition handle (e : Event) (s : ParticleSystem)
  : Random.Rand (ParticleSystem * Output) :=
  match e with
  | Frame => Random.ret (animate s)
  | MouseMove clientX clientY =>
      Random.ret
        ({| window := window s; canvas := canvas s; particles := particles s;
            particleCount := particleCount s;
            mouse := {| mouse_x := Some clientX; mouse_y := Some clientY |};
            pauseAnimation := pauseAnimation s |}, silent)
  | MouseLeave =>
      Random.ret
        ({| window := window s; canvas := canvas s; particles := particles s;
            particleCount := particleCount s;
            mouse := {| mouse_x := None; mouse_y := None |};
            pauseAnimation := pauseAnimation s |}, silent)
  | Resize w =>
      let cv := resizeCanvas w in
      let particleCount1 := getParticleCount w in
      ps <- createParticles cv particleCount1 ;;
      Random.ret
        ({| window := w; canvas := cv; particles := ps;
            particleCount := particleCount1;
            mouse := mouse s;
            pauseAnimation := pauseAnimation s |}, silent)
  | Scroll pageYOffset scrollHeight =>
      let scrollY := pageYOffset in
      let maxScroll := scrollHeight - INR (innerHeight (window s)) in
      let scrollRatio := scrollY / maxScroll in
      Random.ret
        ({| window := window s; canvas := canvas s;
            particles :=
              map (fun p =>
                     {| x := x p; y := y p; vx := vx p;
                        vy := vy p + scrollRatio * 0.001;
                        size := size p; color := color p;
                        opacity := opacity p; pulse := pulse p |})
                  (particles s);
            particleCount := particleCount s;
            mouse := mouse s;
            pauseAnimation := pauseAnimation s |}, silent)
  | VisibilityChange hidden =>
      Random.ret
        ({| window := window s; canvas := canvas s; particles := particles s;
            particleCount := particleCount s;
            mouse := mouse s;
            pauseAnimation := Some (if hidden then true else false) |}, silent)
  end.

(** The callbacks of a list of events, one after the other, with the
    outputs in order. *)
Fixpoint run (es : list Event) (s : ParticleSystem)
  : Random.Rand (ParticleSystem * list Output) :=
  match es with
  | [] => Random.ret (s, [])
  | e :: es' =>
      r <- handle e s ;;
      r' <- run es' (fst r) ;;
      Random.ret (fst r', snd r :: snd r')
  end.

(** ** [createExplosion] *)

Module Explosion.

(** An element of [explosionParticles]. *)
Record Spark : Type := mkSpark {
  x : R;
  y : R;
  vx : R;
  vy : R;
  size : R;
  color : option string;
  opacity : R;
  life : R;
  decay : R
}.

Definition particleCount : nat := 15.

(** The object pushed at iteration [i]; [Math.random()] is called for
    [velocity], [size], [color] and [decay], in this order. *)
Definition newSpark (x0 y0 : R) (i : nat) : Random.Rand Spark :=
  let angle := (Js.Math_PI * 2 * INR i) / INR particleCount in
  r1 <- Random.Math_random ;;
  let velocity := r1 * 5 + 2 in
  r2 <- Random.Math_random ;;
  r3 <- Random.Math_random ;;
  r4 <- Random.Math_random ;;
  Random.ret
    {| x := x0;
       y := y0;
       vx := Js.Math_cos angle * velocity;
       vy := Js.Math_sin angle * velocity;
       size := r2 * 4 + 2;
       color := Js.index colors (Js.Math_floor (r3 * INR (List.length colors)));
       opacity := 1;
       life := 1;
       decay := r4 * 0.02 + 0.01 |}.

(** [for (let i = 0; i < particleCount; i++) explosionParticles.push(...)],
    with [n] the iterations that remain and [i] the loop variable. *)
Fixpoint create_loop (x0 y0 : R) (n i : nat) (explosionParticles : list Spark)
  : Random.Rand (list Spark) :=
  match n with
  | O => Random.ret explosionParticles
  | S n' =>
      p <- newSpark x0 y0 i ;;
      create_loop x0 y0 n' (S i) (explosionParticles ++ [p])
  end.

Definition create (x0 y0 : R) : Random.Rand (list Spark) :=
  create_loop x0 y0 particleCount 0 [].

(** The assignments of the [forEach] callback of [animateExplosion] to
    its particle. *)
Definition age (p : Spark) : Spark :=
  let life1 := life p - decay p in
  {| x := x p + vx p;
     y := y p + vy p;
     vx := vx p * 0.98;
     vy := vy p * 0.98;
     size := size p;
     color := color p;
     opacity := life1;
     life := life1;
     decay := decay p |}.

(** The callback: the particle at [index] is aged in place and, when its
    life is used up, [explosionParticles.splice(index, 1)]. *)
Definition callback (particle : Spark) (index : nat)
    (explosionParticles : list Spark) : list Spark :=
  let particle1 := age particle in
  let a := Js.assign index particle1 explosionParticles in
  if Js.leb (life particle1) 0 then Js.splice1 index a else a.

Definition drawSpark (p : Spark) : Command :=
  FillArc {| disc_globalAlpha := opacity p; fillStyle := color p;
             shadowBlur := 0; centre := (x p, y p); radius := size p |}.

(** One call of [animateExplosion]: the collection it leaves, what it
    draws, and whether it asks for another frame. *)
Definition animateExplosion (explosionParticles : list Spark)
  : list Spark * Output :=
  let a := Js.forEach callback explosionParticles in
  (a, {| drawn := map drawSpark a;
         requestedFrame := (0 <? List.length a)%nat |}).

(** The collection after [n] animation steps: a step runs when
    the one before asked for it (the first is run by [createExplosion]
    itself). *)
Fixpoint steps (n : nat) (explosionParticles : list Spark) : list Spark :=
  match n with
  | O => explosionParticles
  | S n' =>
      let (a, out) := animateExplosion explosionParticles in
      if requestedFrame out then steps n' a else a
  end.

(** *** Observations on the explosion *)

(** A spark that is still alive after this step, and one that is not. *)
Definition survives (p : Spark) : Prop := 0 < life p - decay p.

Definition expires (p : Spark) : Prop := life p - decay p <= 0.

(** The elements at the odd positions 1, 3, 5, ... *)
Fixpoint odds {A} (l : list A) : list A :=
  match l with
  | _ :: e :: r => e :: odds r
  | _ => []
  end.

(** The spark of iteration [i] whose four draws start at draw [k]. *)
Definition spark_of_draws (x0 y0 : R) (src : nat -> R) (i k : nat) : Spark :=
  let angle := (Js.Math_PI * 2 * INR i) / INR particleCount in
  let velocity := src k * 5 + 2 in
  {| x := x0;
     y := y0;
     vx := Js.Math_cos angle * velocity;
     vy := Js.Math_sin angle * velocity;
     size := src (1 + k)%nat * 4 + 2;
     color := Js.index colors
                (Js.Math_floor (src (2 + k)%nat * INR (List.length colors)));
     opacity := 1;
     life := 1;
     decay := src (3 + k)%nat * 0.02 + 0.01 |}.

(** Every draw is 0.28125, so that every decay is 0.015625 = 1/64. *)
Definition burst_draws : nat -> R := fun _ => 0.28125.

Definition burst : list Spark := fst (create 400 300 burst_draws 0%nat).

(** The burst after its first 63 steps. *)
Definition aged63 : list Spark := map (Nat.iter 63 age) burst.

End Explosion.

(** ** The update step in the words of the specification *)

Module Spec.

Definition interactionRadius : R := 100.
Definition attractionConstant : R := 0.001.
Definition velocityCap : R := 2.
Definition frictionFactor : R := 0.99.

Definition set_position (p : Particle) (x' y' : R) : Particle :=
  {| x := x'; y := y'; vx := vx p; vy := vy p; size := size p;
     color := color p; opacity := opacity p; pulse := pulse p |}.

Definition set_velocity (p : Particle) (vx' vy' : R) : Particle :=
  {| x := x p; y := y p; vx := vx'; vy := vy'; size := size p;
     color := color p; opacity := opacity p; pulse := pulse p |}.

(** (a) advance position by velocity. *)
Definition advance (p : Particle) : Particle :=
  set_position p (x p + vx p) (y p + vy p).

(** (b) oscillate opacity by its delta, flipping the delta's sign when
    opacity exits [[0.2, 0.8]]. *)
Definition oscillate (p : Particle) : Particle :=
  let o := opacity p + pulse p in
  {| x := x p; y := y p; vx := vx p; vy := vy p; size := size p;
     color := color p; opacity := o;
     pulse := if Js.leb 0.2 o && Js.leb o 0.8 then pulse p else - pulse p |}.

(** (c) wrap position across each axis independently when it exits the
    viewport bounds. *)
Definition wrap_axis (limit c : R) : R :=
  if Js.ltb c 0 then limit else if Js.gtb c limit then 0 else c.

Definition wrap (cv : Canvas) (p : Particle) : Particle :=
  set_position p (wrap_axis (width cv) (x p)) (wrap_axis (height cv) (y p)).

(** The pointer is present and strictly within the interaction radius of
    the particle: the distance to it, if so. *)
Definition attracted (mouse : Mouse) (p : Particle) : option (R * R * R) :=
  match mouse_x mouse, mouse_y mouse with
  | Some mx, Some my =>
      let dx := mx - x p in
      let dy := my - y p in
      let distance := sqrt (dx * dx + dy * dy) in
      if Js.ltb distance interactionRadius then Some (dx, dy, distance) else None
  | _, _ => None
  end.

Definition clamp (cap v : R) : R := Rmax (- cap) (Rmin cap v).

(** (d) within the radius, add the attraction term, then clamp each
    component to the cap. *)
Definition attract (mouse : Mouse) (p : Particle) : Particle :=
  match attracted mouse p with
  | Some (dx, dy, distance) =>
      let strength :=
        (interactionRadius - distance) / interactionRadius * attractionConstant in
      set_velocity p
        (clamp velocityCap (vx p + dx * strength))
        (clamp velocityCap (vy p + dy * strength))
  | None => p
  end.

(** (e) the friction multiplier, on every step. *)
Definition friction (p : Particle) : Particle :=
  set_velocity p (vx p * frictionFactor) (vy p * frictionFactor).

Definition step (cv : Canvas) (mouse : Mouse) (p : Particle) : Particle :=
  friction (attract mouse (wrap cv (oscillate (advance p)))).

End Spec.

(** ** Observations used by the statements *)

(** The distance between the pointer and the particle [p], when the
    pointer is present. *)
Definition pointer_distance (mouse : Mouse) (p : Particle) : option R :=
  match mouse_x mouse, mouse_y mouse with
  | Some mx, Some my =>
      let dx := mx - x p in
      let dy := my - y p in
      Some (Js.Math_sqrt (dx * dx + dy * dy))
  | _, _ => None
  end.

(** Attraction is active on the step that moves the particle to [q]: the
    pointer is present and closer than 100 px to [q]. *)
Definition attraction_active (mouse : Mouse) (q : Particle) : Prop :=
  exists d, pointer_distance mouse q = Some d /\ d < 100.

(** The pointer is absent, or at 100 px or more from [q]. *)
Definition attraction_idle (mouse : Mouse) (q : Particle) : Prop :=
  pointer_distance mouse q = None \/
  exists d, pointer_distance mouse q = Some d /\ 100 <= d.

(** The states of one particle after each step of a pointer trajectory:
    [mice] gives the pointer state of each successive step. *)
Fixpoint trajectory (cv : Canvas) (mice : list Mouse) (p : Particle)
  : list (Mouse * Particle) :=
  match mice with
  | [] => []
  | m :: mice' =>
      let q := updateParticle cv m p in
      (m, q) :: trajectory cv mice' q
  end.

Definition velocity_capped (q : Particle) : Prop :=
  Rabs (vx q) <= 2 /\ Rabs (vy q) <= 2.

(** A whole session: the constructor on [w], then the events [es]. *)
Definition session (w : Window) (es : list Event)
  : Random.Rand (ParticleSystem * list Output) :=
  r <- construct w ;;
  r' <- run es (fst r) ;;
  Random.ret (fst r', snd r :: snd r').

(** The particle whose eight draws start at draw [k]. *)
Definition particle_of_draws (cv : Canvas) (src : nat -> R) (k : nat) : Particle :=
  {| x := src k * width cv;
     y := src (1 + k)%nat * height cv;
     vx := (src (2 + k)%nat - 0.5) * 0.5;
     vy := (src (3 + k)%nat - 0.5) * 0.5;
     size := src (4 + k)%nat * 3 + 1;
     color := Js.index colors
                (Js.Math_floor (src (5 + k)%nat * INR (List.length colors)));
     opacity := src (6 + k)%nat * 0.5 + 0.3;
     pulse := src (7 + k)%nat * 0.02 + 0.01 |}.

(** The invariant as the specification words it: the half-open rectangle. *)
Definition inside_half_open (cv : Canvas) (p : Particle) : Prop :=
  (0 <= x p < width cv) /\ (0 <= y p < height cv).

(** The rectangle with its far edges. *)
Definition inside_closed (cv : Canvas) (p : Particle) : Prop :=
  (0 <= x p <= width cv) /\ (0 <= y p <= height cv).

(** The opacity is inside [[0.2, 0.8]], or past a bound by at most one
    delta with the delta pointing back inside; the delta keeps the size it
    was created with. *)
Definition overshoot_bounded (p : Particle) : Prop :=
  0.01 <= Rabs (pulse p) < 0.03 /\
  (0.2 <= opacity p <= 0.8 \/
   (0.8 < opacity p <= 0.8 + Rabs (pulse p) /\ pulse p < 0) \/
   (0.2 - Rabs (pulse p) <= opacity p < 0.2 /\ 0 < pulse p)).

Definition is_resize (e : Event) : bool :=
  match e with Resize _ => true | _ => false end.

(** The events of a session in which the viewport size stays fixed. *)
Definition fixed_viewport (es : list Event) : bool :=
  forallb (fun e => negb (is_resize e)) es.

(** The Euclidean distance [drawConnections] computes for two particles. *)
Definition separation (p q : Particle) : R :=
  sqrt ((x p - x q) * (x p - x q) + (y p - y q) * (y p - y q)).

(** The line between two particles, its opacity linear in their distance:
    0.2 at distance 0, 0 at distance 120. *)
Definition link (p q : Particle) : Stroke :=
  {| stroke_globalAlpha := (1 - separation p q / 120) * 0.2;
     strokeStyle := "#00f5ff";
     lineWidth := 1;
     moveTo := (x p, y p);
     lineTo := (x q, y q) |}.

(** ** Concrete inputs *)

Definition canvas800 : Canvas := {| width := 800; height := 600 |}.

Definition window800 : Window :=
  {| innerWidth := 800; innerHeight := 600; hardwareConcurrency := Some 8%nat |}.

Definition window_of (width' height' cores : nat) : Window :=
  {| innerWidth := width'; innerHeight := height';
     hardwareConcurrency := Some cores |}.

Definition zero_draws : nat -> R := fun _ => 0.

Definition half_draws : nat -> R := fun _ => 0.5.

(** A sequence that is 0 on the first 240 draws and 0.5 afterwards. *)
Definition late_draws : nat -> R :=
  fun i => if (i <? 240)%nat then 0 else 0.5.

(** A particle at the origin drifting down and to the right. *)
Definition drifting : Particle :=
  {| x := 0; y := 0; vx := 0.25; vy := 0.25; size := 1;
     color := Some "#00f5ff"%string; opacity := 0.5; pulse := 0.015625 |}.

(** A particle near the upper bound, as [createParticles] makes it from
    the draws 0.99375 (opacity) and 0.28125 (pulse). *)
Definition bright : Particle :=
  {| x := 400; y := 300; vx := 0.125; vy := 0.125; size := 2.5;
     color := Some "#00f5ff"%string; opacity := 0.796875; pulse := 0.015625 |}.

Definition pointer_near : Mouse :=
  {| mouse_x := Some 3.25; mouse_y := Some 4.25 |}.

Definition pointer_absent : Mouse :=
  {| mouse_x := None; mouse_y := None |}.

(** Draws that create a first particle of opacity 0.796875 and oscillation
    delta 0.015625: 0.99375 for the opacity, 0.28125 otherwise. *)
Definition bright_draws : nat -> R :=
  fun k => match k with 6%nat => 0.99375 | _ => 0.28125 end.

(** Two particles exactly 120 px apart, and one 5 px from the first. *)
Definition at_origin : Particle :=
  {| x := 0; y := 0; vx := 0.125; vy := 0.125; size := 2.5;
     color := Some "#00f5ff"%string; opacity := 0.5; pulse := 0.015625 |}.

Definition at_120 : Particle :=
  {| x := 120; y := 0; vx := 0.125; vy := 0.125; size := 2.5;
     color := Some "#00f5ff"%string; opacity := 0.5; pulse := 0.015625 |}.

Definition at_3_4 : Particle :=
  {| x := 3; y := 4; vx := 0.125; vy := 0.125; size := 2.5;
     color := Some "#00f5ff"%string; opacity := 0.5; pulse := 0.015625 |}.

(** ** [setMode] *)

(** [this.particles.forEach(callback)] for a callback that assigns to its
    particle and calls [Math.random()]: the particles are visited in order,
    each visit continuing the draws of the one before. *)
Fixpoint forEach_drawing (callback : Particle -> Random.Rand Particle)
    (particles : list Particle) : Random.Rand (list Particle) :=
  match particles with
  | [] => Random.ret []
  | p :: rest =>
      q <- callback p ;;
      qs <- forEach_drawing callback rest ;;
      Random.ret (q :: qs)
  end.

(** The callback of the cases ['calm'] (factor 0.2) and ['energetic']
    (factor 1.5). *)
Definition randomVelocity (factor : R) (p : Particle) : Random.Rand Particle :=
  r1 <- Random.Math_random ;;
  r2 <- Random.Math_random ;;
  Random.ret
    {| x := x p; y := y p;
       vx := (r1 - 0.5) * factor;
       vy := (r2 - 0.5) * factor;
       size := size p; color := color p;
       opacity := opacity p; pulse := pulse p |}.

(** The callback of the case ['upward']. *)
Definition upwardVelocity (p : Particle) : Random.Rand Particle :=
  r1 <- Random.Math_random ;;
  Random.ret
    {| x := x p; y := y p;
       vx := vx p;
       vy := - Js.Math_abs (vy p) - r1 * 0.5;
       size := size p; color := color p;
       opacity := opacity p; pulse := pulse p |}.

(** [setMode(mode)] on the particle collection; the [switch] has no
    [default], so any other mode does nothing. *)
Definition setMode_particles (mode : string) (particles : list Particle)
  : Random.Rand (list Particle) :=
  if String.eqb mode "calm" then
    forEach_drawing (randomVelocity 0.2) particles
  else if String.eqb mode "energetic" then
    forEach_drawing (randomVelocity 1.5) particles
  else if String.eqb mode "upward" then
    forEach_drawing upwardVelocity particles
  else Random.ret particles.

Definition setMode (mode : string) (s : ParticleSystem)
  : Random.Rand ParticleSystem :=
  ps <- setMode_particles mode (particles s) ;;
  Random.ret
    {| window := window s; canvas := canvas s; particles := ps;
       particleCount := particleCount s; mouse := mouse s;
       pauseAnimation := pauseAnimation s |}.

(** Two particles that differ in their velocity at most. *)
Definition same_but_velocity (p q : Particle) : Prop :=
  x q = x p /\ y q = y p /\ size q = size p /\ color q = color p /\
  opacity q = opacity p /\ pulse q = pulse p.

(** ** One step of the explosion, by recursion on the collection *)

(** The collection one [forEach] of [animateExplosion] leaves: a spark
    that survives its aging is kept, aged; a spark that expires is removed,
    and the spark after it, which the removal moved under the index just
    visited, is kept as it was. *)
Fixpoint sweep (sparks : list Explosion.Spark) : list Explosion.Spark :=
  match sparks with
  | [] => []
  | p :: rest =>
      if Js.leb (Explosion.life (Explosion.age p)) 0 then
        match rest with
        | [] => []
        | q :: rest' => q :: sweep rest'
        end
      else Explosion.age p :: sweep rest
  end.

(** Every spark of the collection decays, and has at most [m] decays of
    life left. *)
Definition lives_within (m : nat) (sparks : list Explosion.Spark) : Prop :=
  Forall (fun p => 0 < Explosion.decay p /\
                   Explosion.life p <= INR m * Explosion.decay p) sparks.

(** ** [FloatingOrbs] *)

Module Orbs.

(** An element of [this.orbs]; its [element] is the DOM node the step
    writes the position to. *)
Record Orb : Type := mkOrb {
  x : R;
  y : R;
  vx : R;
  vy : R;
  size : R
}.

Definition gradients : list string :=
  [ "linear-gradient(45deg, #00f5ff, #bf00ff)";
    "linear-gradient(45deg, #39ff14, #00f5ff)";
    "linear-gradient(45deg, #ff007f, #ff8c00)";
    "linear-gradient(45deg, #bf00ff, #39ff14)";
    "linear-gradient(45deg, #ff8c00, #00ffaa)";
    "linear-gradient(45deg, #00ffaa, #ff007f)" ]%string.

(** The [div] made for one orb: its width (and height) in px, its
    background, its opacity, and its left and top in percent. *)
Record OrbElement : Type := mkOrbElement {
  style_width : R;
  style_background : option string;
  style_opacity : R;
  style_left : R;
  style_top : R
}.

(** One iteration of the loop of [createOrbs]. [parseIntWidth v] stands
    for [parseInt(orb.style.width)] after [orb.style.width = v + 'px']: what
    the document gives back for the width is the host's. *)
Definition newOrb (parseIntWidth : R -> R) (w : Window)
  : Random.Rand (OrbElement * Orb) :=
  r1 <- Random.Math_random ;;
  r2 <- Random.Math_random ;;
  r3 <- Random.Math_random ;;
  r4 <- Random.Math_random ;;
  r5 <- Random.Math_random ;;
  r6 <- Random.Math_random ;;
  r7 <- Random.Math_random ;;
  r8 <- Random.Math_random ;;
  r9 <- Random.Math_random ;;
  let width' := r1 * 20 + 10 in
  Random.ret
    ({| style_width := width';
        style_background :=
          Js.index gradients (Js.Math_floor (r2 * INR (List.length gradients)));
        style_opacity := r3 * 0.6 + 0.2;
        style_left := r4 * 100;
        style_top := r5 * 100 |},
     {| x := r6 * INR (innerWidth w);
        y := r7 * INR (innerHeight w);
        vx := (r8 - 0.5) * 0.5;
        vy := (r9 - 0.5) * 0.5;
        size := parseIntWidth width' |}).

Fixpoint createOrbs_loop (parseIntWidth : R -> R) (w : Window) (n : nat)
    (made : list (OrbElement * Orb)) : Random.Rand (list (OrbElement * Orb)) :=
  match n with
  | O => Random.ret made
  | S n' =>
      o <- newOrb parseIntWidth w ;;
      createOrbs_loop parseIntWidth w n' (made ++ [o])
  end.

Definition orbCount (w : Window) : nat :=
  if (innerWidth w <? 768)%nat then 3%nat else 6%nat.

(** The body of the [forEach] callback of [animate]. *)
Definition animateOrb (w : Window) (orb : Orb) : Orb :=
  let x1 := x orb + vx orb in
  let y1 := y orb + vy orb in
  (* Bounce off edges *)
  let '(vx1, x2) :=
    if Js.leb x1 0 || Js.geb x1 (INR (innerWidth w) - size orb) then
      (vx orb * -1,
       Js.Math_max 0 (Js.Math_min (INR (innerWidth w) - size orb) x1))
    else (vx orb, x1) in
  let '(vy1, y2) :=
    if Js.leb y1 0 || Js.geb y1 (INR (innerHeight w) - size orb) then
      (vy orb * -1,
       Js.Math_max 0 (Js.Math_min (INR (innerHeight w) - size orb) y1))
    else (vy orb, y1) in
  {| x := x2; y := y2; vx := vx1; vy := vy1; size := size orb |}.

(** [animate()]: the orbs after the step, the [translate(x, y)] written to
    each element, and the request of the next frame. *)
Definition animate (w : Window) (orbs : list Orb)
  : list Orb * list (R * R) * bool :=
  let orbs1 := map (animateOrb w) orbs in
  (orbs1, map (fun o => (x o, y o)) orbs1, true).

(** [createOrbs()]: nothing at all without the container; otherwise the
    elements appended, the orbs after the first [animate()], and whether
    the animation was started. *)
Definition createOrbs (parseIntWidth : R -> R) (hasContainer : bool) (w : Window)
  : Random.Rand (list OrbElement * list Orb * bool) :=
  if hasContainer then
    made <- createOrbs_loop parseIntWidth w (orbCount w) [] ;;
    let '(orbs1, _, requested) := animate w (map snd made) in
    Random.ret (map fst made, orbs1, requested)
  else Random.ret ([], [], false).

End Orbs.

(** ** [NavigationController]: smooth scrolling and the current section *)

Module Navigation.

Definition easeInOutCubic (t b c d : R) : R :=
  let t1 := t / (d / 2) in
  if Js.ltb t1 1 then c / 2 * t1 * t1 * t1 + b
  else
    let t2 := t1 - 2 in
    c / 2 * (t2 * t2 * t2 + 2) + b.

Definition duration : R := 1000.

(** One call of the [animation] callback of [smoothScrollTo] at
    [currentTime]: the value of [start] afterwards, the position given to
    [window.scrollTo], and whether another frame was requested (when not,
    the loader is hidden). *)
Definition animation (startPosition distance : R) (start : option R)
    (currentTime : R) : R * R * bool :=
  let start1 := match start with None => currentTime | Some s => s end in
  let timeElapsed := currentTime - start1 in
  let run := easeInOutCubic timeElapsed startPosition distance duration in
  (start1, run, Js.ltb timeElapsed duration).

(** The positions scrolled to over the frames at the times [times], while
    the callback keeps requesting the next frame. *)
Fixpoint scrollFrames (startPosition distance : R) (start : option R)
    (times : list R) : list R :=
  match times with
  | [] => []
  | currentTime :: later =>
      let '(start1, run, again) :=
        animation startPosition distance start currentTime in
      run :: (if again then scrollFrames startPosition distance (Some start1) later
              else [])
  end.

(** [smoothScrollTo(target)], with [top] the target's
    [getBoundingClientRect().top] and [pageYOffset] the scroll offset at
    the call. *)
Definition smoothScrollTo (top pageYOffset : R) (times : list R) : list R :=
  let targetPosition := top + pageYOffset - 80 in
  let startPosition := pageYOffset in
  let distance := targetPosition - startPosition in
  scrollFrames startPosition distance None times.

(** A section of the page: its [id], [offsetTop] and [offsetHeight]. *)
Record Section : Type := mkSection {
  section_id : string;
  offsetTop : R;
  offsetHeight : R
}.

(** [for (let section of this.sections)] in [getCurrentSection()]; [null]
    is [None]. *)
Fixpoint getCurrentSection_loop (scrollPosition : R) (sections : list Section)
  : option Section :=
  match sections with
  | [] => None
  | section :: rest =>
      let sectionTop := offsetTop section in
      let sectionHeight := offsetHeight section in
      if Js.geb scrollPosition sectionTop
         && Js.ltb scrollPosition (sectionTop + sectionHeight)
      then Some section
      else getCurrentSection_loop scrollPosition rest
  end.

Definition getCurrentSection (pageYOffset : R) (sections : list Section)
  : option Section :=
  let scrollPosition := pageYOffset + 100 in
  getCurrentSection_loop scrollPosition sections.

(** The position lies in the section. *)
Definition contains (scrollPosition : R) (s : Section) : Prop :=
  offsetTop s <= scrollPosition < offsetTop s + offsetHeight s.

End Navigation.

(** ** [ThemeController] *)

Module Theme.
#[local] Open Scope string_scope.

(** [classList.remove(c)] and [classList.add(c)] on a list of classes
    without repetition. *)
Definition classList_remove (c : string) (classes : list string) : list string :=
  filter (fun d => negb (String.eqb c d)) classes.

Definition classList_add (c : string) (classes : list string) : list string :=
  if existsb (String.eqb c) classes then classes else (classes ++ [c])%list.

(** A callback waiting in [setTimeout]: the one of [toggleTheme] (50 ms)
    with the theme it captured, and the one that ends the transition
    (300 ms). *)
Inductive Timer : Type :=
| ApplyNewTheme (newTheme : string)
| EndTransition.

(** How a call ends: normally, or by a [TypeError] that leaves the
    assignments made so far. *)
Inductive Completion : Type :=
| Normal
| TypeError.

(** The controller with what it reads and writes outside itself:
    [storage] is [localStorage.getItem('portfolio-theme')], [prefersDark]
    is [this.prefersDarkScheme.matches], [hasToggle] tells whether
    [.theme-toggle] exists; [toggleShows] and [toggleLabel] are what
    [updateThemeToggle] wrote (the theme whose icon is shown, and the
    label); [dispatched] lists the [themeChange] events, latest first, each
    with its [theme] and [previousTheme]. *)
Record Controller : Type := mkController {
  currentTheme : string;
  storage : option string;
  prefersDark : bool;
  hasToggle : bool;
  bodyClasses : list string;
  toggleShows : option string;
  toggleLabel : option string;
  metaThemeColor : option string;
  dispatched : list (string * string);
  timers : list Timer
}.

(** The names every object inherits from [Object.prototype]: for them
    [this.themes[name]] is defined although [name] is no theme. *)
Definition object_prototype_names : list string :=
  [ "constructor"; "hasOwnProperty"; "isPrototypeOf"; "propertyIsEnumerable";
    "toLocaleString"; "toString"; "valueOf"; "__proto__";
    "__defineGetter__"; "__defineSetter__"; "__lookupGetter__";
    "__lookupSetter__" ].

Definition is_theme (name : string) : bool :=
  String.eqb name "dark" || String.eqb name "light".

Definition theme_label (name : string) : string :=
  if String.eqb name "dark" then "Switch to Light Mode" else "Switch to Dark Mode".

Definition opposite (theme : string) : string :=
  if String.eqb theme "dark" then "light" else "dark".

Definition set_theme (c : Controller) (t : string) (st : option string)
    (classes : list string) : Controller :=
  {| currentTheme := t; storage := st; prefersDark := prefersDark c;
     hasToggle := hasToggle c; bodyClasses := classes;
     toggleShows := toggleShows c; toggleLabel := toggleLabel c;
     metaThemeColor := metaThemeColor c; dispatched := dispatched c;
     timers := timers c |}.

(** [updateThemeToggle()]: [theme.label] throws when
    [this.themes[this.currentTheme]] is [undefined]; the icon was written
    before. *)
Definition updateThemeToggle (c : Controller) : Controller * Completion :=
  if negb (hasToggle c) then (c, Normal)
  else
    let oppositeTheme := opposite (currentTheme c) in
    let shown (label : option string) :=
      {| currentTheme := currentTheme c; storage := storage c;
         prefersDark := prefersDark c; hasToggle := hasToggle c;
         bodyClasses := bodyClasses c;
         toggleShows := Some oppositeTheme; toggleLabel := label;
         metaThemeColor := metaThemeColor c; dispatched := dispatched c;
         timers := timers c |} in
    if is_theme (currentTheme c) then
      (shown (Some (theme_label (currentTheme c))), Normal)
    else if existsb (String.eqb (currentTheme c)) object_prototype_names then
      (shown (Some "undefined"), Normal)
    else (shown (toggleLabel c), TypeError).

(** [updateMetaThemeColor()] then [triggerThemeChangeEvent()]. *)
Definition announce (c : Controller) : Controller :=
  {| currentTheme := currentTheme c; storage := storage c;
     prefersDark := prefersDark c; hasToggle := hasToggle c;
     bodyClasses := bodyClasses c;
     toggleShows := toggleShows c; toggleLabel := toggleLabel c;
     metaThemeColor :=
       Some (if String.eqb (currentTheme c) "dark" then "#0a0a0a" else "#ffffff");
     dispatched := (currentTheme c, opposite (currentTheme c)) :: dispatched c;
     timers := timers c |}.

(** [applyTheme(themeName)], [saveTheme()] included. *)
Definition applyTheme (themeName : string) (c : Controller)
  : Controller * Completion :=
  let classes :=
    classList_add (String.append themeName "-theme")
      (classList_remove "light-theme" (classList_remove "dark-theme" (bodyClasses c))) in
  let c1 := set_theme c themeName (Some themeName) classes in
  match updateThemeToggle c1 with
  | (c2, Normal) => (announce c2, Normal)
  | (c2, TypeError) => (c2, TypeError)
  end.

(** A string is truthy unless it is empty. *)
Definition truthy (s : option string) : bool :=
  match s with
  | Some s' => negb (String.eqb s' "")
  | None => false
  end.

Definition systemTheme (matches : bool) : string :=
  if matches then "dark" else "light".

Definition loadSavedTheme (c : Controller) : Controller * Completion :=
  let current :=
    match storage c with
    | Some savedTheme =>
        if truthy (Some savedTheme) then savedTheme
        else systemTheme (prefersDark c)
    | None => systemTheme (prefersDark c)
    end in
  applyTheme current (set_theme c current (storage c) (bodyClasses c)).

(** [new ThemeController()] on a page with the given storage, system
    preference, toggle and body classes: [init()] runs [loadSavedTheme()]
    and, when that returns, [updateThemeToggle()]. *)
Definition construct (saved : option string) (dark hasToggle' : bool)
    (classes : list string) : Controller * Completion :=
  let c0 :=
    {| currentTheme := "dark"; storage := saved; prefersDark := dark;
       hasToggle := hasToggle'; bodyClasses := classes;
       toggleShows := None; toggleLabel := None; metaThemeColor := None;
       dispatched := []; timers := [] |} in
  match loadSavedTheme c0 with
  | (c1, Normal) => updateThemeToggle c1
  | (c1, TypeError) => (c1, TypeError)
  end.

Definition set_timers (c : Controller) (classes : list string)
    (pending : list Timer) : Controller :=
  {| currentTheme := currentTheme c; storage := storage c;
     prefersDark := prefersDark c; hasToggle := hasToggle c;
     bodyClasses := classes;
     toggleShows := toggleShows c; toggleLabel := toggleLabel c;
     metaThemeColor := metaThemeColor c; dispatched := dispatched c;
     timers := pending |}.

(** [toggleTheme()]: the new theme is chosen now and applied by a timer. *)
Definition toggleTheme (c : Controller) : Controller :=
  let newTheme := if String.eqb (currentTheme c) "dark" then "light" else "dark" in
  set_timers c (classList_add "theme-transitioning" (bodyClasses c))
    (timers c ++ [ApplyNewTheme newTheme])%list.

(** The callback of a timer. *)
Definition fire (t : Timer) (c : Controller) : Controller * Completion :=
  match t with
  | ApplyNewTheme newTheme =>
      match applyTheme newTheme c with
      | (c1, Normal) =>
          (set_timers c1 (bodyClasses c1) (timers c1 ++ [EndTransition])%list, Normal)
      | (c1, TypeError) => (c1, TypeError)
      end
  | EndTransition =>
      (set_timers c (classList_remove "theme-transitioning" (bodyClasses c))
         (timers c), Normal)
  end.

(** The listener of [setupSystemThemeListener]. *)
Definition systemChange (matches : bool) (c : Controller)
  : Controller * Completion :=
  let c1 :=
    {| currentTheme := currentTheme c; storage := storage c;
       prefersDark := matches; hasToggle := hasToggle c;
       bodyClasses := bodyClasses c;
       toggleShows := toggleShows c; toggleLabel := toggleLabel c;
       metaThemeColor := metaThemeColor c; dispatched := dispatched c;
       timers := timers c |} in
  if negb (truthy (storage c1)) then applyTheme (systemTheme matches) c1
  else (c1, Normal).

(** [resetToDefaults()]; the custom properties it removes from the root
    element are not part of this state. *)
Definition resetToDefaults (c : Controller) : Controller * Completion :=
  let c1 := set_theme c (currentTheme c) None
              (classList_remove "high-contrast" (bodyClasses c)) in
  applyTheme (systemTheme (prefersDark c1)) c1.

(** What can happen to a controller: a click on the toggle or Ctrl+T, a
    pending timer running (the [i]-th, in the order they were set), a
    change of the system preference, a reset. *)
Inductive Event : Type :=
| Toggle
| Fire (i : nat)
| SystemChange (matches : bool)
| Reset.

Definition handle (e : Event) (c : Controller) : Controller * Completion :=
  match e with
  | Toggle => (toggleTheme c, Normal)
  | Fire i =>
      match nth_error (timers c) i with
      | Some t =>
          fire t (set_timers c (bodyClasses c)
                    (firstn i (timers c) ++ skipn (S i) (timers c))%list)
      | None => (c, Normal)
      end
  | SystemChange matches => systemChange matches c
  | Reset => resetToDefaults c
  end.

(** The handlers of a list of events in turn; an exception in one handler
    ends that handler only. *)
Fixpoint run (es : list Event) (c : Controller) : Controller :=
  match es with
  | [] => c
  | e :: es' => run es' (fst (handle e c))
  end.

End Theme.

(** ** [PortfolioApp]: device capabilities and the particle component *)

Module App.
#[local] Open Scope string_scope.

Record Config : Type := mkConfig {
  enableAnimations : bool;
  enableParticles : bool;
  enableSoundEffects : bool;
  performanceMode : string
}.

(** [this.config] as the constructor sets it. *)
Definition initialConfig : Config :=
  {| enableAnimations := true; enableParticles := true;
     enableSoundEffects := false; performanceMode := "auto" |}.

(** What the host answers: WebGL support, the reduced-motion media query,
    the connection type, and whether [#particles-canvas] exists. *)
Record Host : Type := mkHost {
  webGL : bool;
  reducedMotion : bool;
  connection : string;
  hasParticlesCanvas : bool
}.

Record Capabilities : Type := mkCapabilities {
  isMobile : bool;
  isTablet : bool;
  isDesktop : bool;
  lowEnd : bool;
  supportsWebGL : bool;
  prefersReducedMotion : bool;
  connectionSpeed : string
}.

(** [detectDeviceCapabilities()]: the capabilities and the configuration
    it leaves. [lowEnd] is the truth value of
    [hardwareConcurrency && hardwareConcurrency < 4]. *)
Definition detectDeviceCapabilities (w : Window) (h : Host) (config : Config)
  : Capabilities * Config :=
  let capabilities :=
    {| isMobile := (innerWidth w <? 768)%nat;
       isTablet := (768 <=? innerWidth w)%nat && (innerWidth w <? 1024)%nat;
       isDesktop := (1024 <=? innerWidth w)%nat;
       lowEnd := isLowEnd w;
       supportsWebGL := webGL h;
       prefersReducedMotion := reducedMotion h;
       connectionSpeed := connection h |} in
  if lowEnd capabilities || isMobile capabilities || prefersReducedMotion capabilities
  then (capabilities,
        {| enableAnimations := false; enableParticles := false;
           enableSoundEffects := enableSoundEffects config;
           performanceMode := "optimized" |})
  else (capabilities, config).

(** The particle component of [initializeComponents()], after
    [initializeCore()] has detected the capabilities: [None] is an absent
    [this.components.particles]. *)
Definition initializeParticles (w : Window) (h : Host)
  : Random.Rand (option ParticleSystem) :=
  let config := snd (detectDeviceCapabilities w h initialConfig) in
  if enableParticles config then
    if hasParticlesCanvas h then
      r <- construct w ;;
      Random.ret (Some (fst r))
    else Random.ret None
  else Random.ret None.

(** The methods of [class ParticleSystem] that can be called on an
    instance. *)
Definition particleSystem_methods : list string :=
  [ "getParticleCount"; "init"; "resizeCanvas"; "createParticles";
    "updateParticles"; "drawParticles"; "drawConnections"; "animate";
    "setupEventListeners"; "createExplosion"; "setMode" ].

(** The functions every object inherits from [Object.prototype]. *)
Definition object_prototype_methods : list string :=
  [ "hasOwnProperty"; "isPrototypeOf"; "propertyIsEnumerable";
    "toLocaleString"; "toString"; "valueOf";
    "__defineGetter__"; "__defineSetter__"; "__lookupGetter__";
    "__lookupSetter__" ].

(** How a handler ends: it returns without a call, it calls a method of
    the particle component, or the call throws. *)
Inductive Outcome : Type :=
| Returned
| Invoked (method : string)
| ThrewTypeError.

(** [this.components.particles.name()]: a name that is no function of the
    object throws a [TypeError]. *)
Definition callMember (name : string) : Outcome :=
  if existsb (String.eqb name)
       (particleSystem_methods ++ object_prototype_methods)%list
  then Invoked name else ThrewTypeError.

Definition handleWindowFocus (particles : option ParticleSystem) : Outcome :=
  match particles with
  | Some _ => callMember "resume"
  | None => Returned
  end.

Definition handleWindowBlur (particles : option ParticleSystem) : Outcome :=
  match particles with
  | Some _ => callMember "pause"
  | None => Returned
  end.

Definition handleVisibilityChange (hidden : bool) (particles : option ParticleSystem)
  : Outcome :=
  if hidden then handleWindowBlur particles else handleWindowFocus particles.

End App.

(** ** [AnimationSwitcher] *)

Module Switcher.
#[local] Open Scope string_scope.

Definition animations : list string :=
  [ "tech-pulse"; "holographic-border"; "matrix-glow"; "neural-network";
    "orbital-motion" ].

(** What a call does to the profile element and the page: the animation
    style set at once, the one a 100 ms timer will set, the notification
    shown. *)
Inductive Effect : Type :=
| SetAnimation (value : string)
| SetAnimationLater (value : string)
| Notify (animationName : string).

Record State : Type := mkState {
  currentIndex : nat;
  hasProfileElement : bool
}.

(** [animations[i]] with [""] for [undefined]. *)
Definition animationAt (i : nat) : string := nth i animations "".

Definition style (animationName : string) : string :=
  String.append animationName " 8s ease-in-out infinite".

Definition switchToNextAnimation (s : State) : State * list Effect :=
  if negb (hasProfileElement s) then (s, [])
  else
    let currentIndex1 := ((currentIndex s + 1) mod List.length animations)%nat in
    let nextAnim := animationAt currentIndex1 in
    ({| currentIndex := currentIndex1; hasProfileElement := hasProfileElement s |},
     [SetAnimation "none"; SetAnimationLater (style nextAnim); Notify nextAnim]).

(** [array.indexOf(name)]: the first index holding [name], if any. *)
Fixpoint indexOf (name : string) (array : list string) : option nat :=
  match array with
  | [] => None
  | a :: rest =>
      if String.eqb a name then Some 0%nat
      else option_map S (indexOf name rest)
  end.

Definition switchToAnimation (animationName : string) (s : State)
  : State * list Effect :=
  if negb (hasProfileElement s) then (s, [])
  else
    match indexOf animationName animations with
    | None => (s, [])
    | Some i =>
        ({| currentIndex := i; hasProfileElement := hasProfileElement s |},
         [SetAnimation "none"; SetAnimationLater (style animationName)])
    end.

End Switcher.

(** ** [ModernCursorEffect]: the trails *)

Module Cursor.
#[local] Open Scope string_scope.

(** An element of [this.trails]; [element] identifies the [div] made for
    it, [color] is absent on the trails of the light theme. *)
Record Trail : Type := mkTrail {
  element : nat;
  life : R;
  color : option (option string)
}.

(** The trails, the trail elements that are children of the body, and the
    number of elements created so far (the next [createElement] makes the
    element of that number). *)
Record State : Type := mkState {
  trails : list Trail;
  attached : list nat;
  created : nat
}.

Definition maxTrails : nat := 12.

Definition colors_dark : list string :=
  [ "#ff6b6b"; "#4ecdc4"; "#45b7d1"; "#96ceb4"; "#feca57"; "#ff9ff3"; "#54a0ff" ].

Definition colors_light : list string :=
  [ "#667eea"; "#764ba2"; "#f093fb"; "#f5576c" ].

(** [node.remove()]. *)
Definition detach (e : nat) (nodes : list nat) : list nat :=
  filter (fun n => negb (Nat.eqb n e)) nodes.

(** [array.findIndex(item => item.element === element)]. *)
Fixpoint findIndex (e : nat) (array : list Trail) : option nat :=
  match array with
  | [] => None
  | item :: rest =>
      if Nat.eqb (element item) e then Some 0%nat
      else option_map S (findIndex e rest)
  end.

Definition removeFromArray (array : list Trail) (e : nat) : list Trail :=
  match findIndex e array with
  | Some index => Js.splice1 index array
  | None => array
  end.

(** The part [createSimpleTrail] and [createColorfulTrail] share, after
    the colour was drawn: the new element is appended and pushed, and the
    oldest trail is shifted out when there are more than [maxTrails]. *)
Definition pushTrail (item_color : option (option string)) (s : State) : State :=
  let trail := created s in
  let attached1 := (attached s ++ [trail])%list in
  let trails1 :=
    (trails s ++ [{| element := trail; life := 1; color := item_color |}])%list in
  if (maxTrails <? List.length trails1)%nat then
    match trails1 with
    | oldTrail :: rest =>
        {| trails := rest; attached := detach (element oldTrail) attached1;
           created := S (created s) |}
    | [] => {| trails := []; attached := attached1; created := S (created s) |}
    end
  else {| trails := trails1; attached := attached1; created := S (created s) |}.

Definition createSimpleTrail (s : State) : Random.Rand State :=
  r <- Random.Math_random ;;
  let color' := Js.index colors_light
                  (Js.Math_floor (r * INR (List.length colors_light))) in
  Random.ret (pushTrail None s).

Definition createColorfulTrail (s : State) : Random.Rand State :=
  r <- Random.Math_random ;;
  let color' := Js.index colors_dark
                  (Js.Math_floor (r * INR (List.length colors_dark))) in
  Random.ret (pushTrail (Some color') s).

(** The timer of a trail: [trail.remove()] when it is still in the
    document, then [removeFromArray(this.trails, trail)]. *)
Definition trailTimer (trail : nat) (s : State) : State :=
  {| trails := removeFromArray (trails s) trail;
     attached := detach trail (attached s);
     created := created s |}.

(** The trails' part of [removeCursor]: every trail element is removed
    from the document and the array is replaced by an empty one. *)
Definition removeCursor (s : State) : State :=
  {| trails := [];
     attached := fold_left (fun nodes trail => detach (element trail) nodes)
                           (trails s) (attached s);
     created := created s |}.

Inductive Event : Type :=
| SimpleTrail
| ColorfulTrail
| TrailTimer (trail : nat)
| RemoveCursor.

Definition handle (e : Event) (s : State) : Random.Rand State :=
  match e with
  | SimpleTrail => createSimpleTrail s
  | ColorfulTrail => createColorfulTrail s
  | TrailTimer trail => Random.ret (trailTimer trail s)
  | RemoveCursor => Random.ret (removeCursor s)
  end.

Fixpoint run (es : list Event) (s : State) : Random.Rand State :=
  match es with
  | [] => Random.ret s
  | e :: es' =>
      s1 <- handle e s ;;
      run es' s1
  end.

Definition initial : State := {| trails := []; attached := []; created := 0 |}.

End Cursor.

(** ** Facts about numbers *)

Lemma ltb_true a b : Js.ltb a b = true <-> a < b.
Proof. unfold Js.ltb; destruct (Rlt_dec a b); split; auto; discriminate. Qed.

Lemma ltb_false a b : Js.ltb a b = false <-> b <= a.
Proof.
  unfold Js.ltb; destruct (Rlt_dec a b); split; auto; try discriminate; lra.
Qed.

Lemma gtb_true a b : Js.gtb a b = true <-> b < a.
Proof. apply ltb_true. Qed.

Lemma gtb_false a b : Js.gtb a b = false <-> a <= b.
Proof. apply ltb_false. Qed.

Lemma leb_true a b : Js.leb a b = true <-> a <= b.
Proof. unfold Js.leb; destruct (Rle_dec a b); split; auto; discriminate. Qed.

Lemma leb_false a b : Js.leb a b = false <-> b < a.
Proof.
  unfold Js.leb; destruct (Rle_dec a b); split; auto; try discriminate; lra.
Qed.

(** Case analysis on every comparison of the goal, each case with the
    order it gives as a hypothesis. *)
Ltac cases_cmp :=
  repeat match goal with
    | |- context [Js.gtb ?a ?b] =>
        let H := fresh "Hc" in
        destruct (Js.gtb a b) eqn:H;
        [ apply gtb_true in H | apply gtb_false in H ]
    | |- context [Js.ltb ?a ?b] =>
        let H := fresh "Hc" in
        destruct (Js.ltb a b) eqn:H;
        [ apply ltb_true in H | apply ltb_false in H ]
    | |- context [Js.leb ?a ?b] =>
        let H := fresh "Hc" in
        destruct (Js.leb a b) eqn:H;
        [ apply leb_true in H | apply leb_false in H ]
    end.

Lemma clamp_bounds m v :
  0 <= m -> - m <= Js.Math_max (- m) (Js.Math_min m v) <= m.
Proof.
  intros Hm; unfold Js.Math_max, Js.Math_min, Rmax, Rmin.
  destruct (Rle_dec m v); destruct (Rle_dec _ _); lra.
Qed.

Lemma friction_shrinks v : Rabs (v * 0.99) <= Rabs v.
Proof.
  unfold Rabs; destruct (Rcase_abs (v * 0.99)); destruct (Rcase_abs v); lra.
Qed.

Lemma sqrt_3_4 : sqrt (3 * 3 + 4 * 4) = 5.
Proof. replace (3 * 3 + 4 * 4) with (5 * 5) by lra. apply sqrt_square; lra. Qed.

(** ** Facts about one update step *)

(** The position a step leaves does not depend on the pointer. *)
Lemma updateParticle_x cv m p :
  x (updateParticle cv m p) =
  (let x1 := x p + vx p in
   let x2 := if Js.ltb x1 0 then width cv else x1 in
   if Js.gtb x2 (width cv) then 0 else x2).
Proof.
  unfold updateParticle.
  destruct (mouse_x m), (mouse_y m); try reflexivity.
  destruct (Js.ltb _ 100); reflexivity.
Qed.

Lemma updateParticle_y cv m p :
  y (updateParticle cv m p) =
  (let y1 := y p + vy p in
   let y2 := if Js.ltb y1 0 then height cv else y1 in
   if Js.gtb y2 (height cv) then 0 else y2).
Proof.
  unfold updateParticle.
  destruct (mouse_x m), (mouse_y m); try reflexivity.
  destruct (Js.ltb _ 100); reflexivity.
Qed.

Lemma updateParticle_opacity cv m p :
  opacity (updateParticle cv m p) = opacity p + pulse p.
Proof.
  unfold updateParticle.
  destruct (mouse_x m), (mouse_y m); try reflexivity.
  destruct (Js.ltb _ 100); reflexivity.
Qed.

Lemma updateParticle_pulse cv m p :
  pulse (updateParticle cv m p) =
  if Js.gtb (opacity p + pulse p) 0.8 || Js.ltb (opacity p + pulse p) 0.2
  then pulse p * -1 else pulse p.
Proof.
  unfold updateParticle.
  destruct (mouse_x m), (mouse_y m); try reflexivity.
  destruct (Js.ltb _ 100); reflexivity.
Qed.

(** The velocity a step leaves, by the test the step makes. *)
Lemma updateParticle_velocity cv m p :
  let q := updateParticle cv m p in
  match pointer_distance m q with
  | Some distance =>
      if Js.ltb distance 100 then
        let force := (100 - distance) / 100 in
        vx q = Js.Math_max (- (2)) (Js.Math_min 2
                 (vx p + (match mouse_x m with Some mx => mx | None => 0 end - x q)
                         * force * 0.001)) * 0.99 /\
        vy q = Js.Math_max (- (2)) (Js.Math_min 2
                 (vy p + (match mouse_y m with Some my => my | None => 0 end - y q)
                         * force * 0.001)) * 0.99
      else vx q = vx p * 0.99 /\ vy q = vy p * 0.99
  | None => vx q = vx p * 0.99 /\ vy q = vy p * 0.99
  end.
Proof.
  cbv zeta; unfold pointer_distance.
  rewrite updateParticle_x, updateParticle_y; cbv zeta.
  unfold updateParticle.
  destruct (mouse_x m) as [mx|], (mouse_y m) as [my|]; cbn; auto.
  destruct (Js.ltb _ 100) eqn:E; cbn; auto.
Qed.

(** ** C1: the velocity cap under attraction *)

Lemma attraction_caps_velocity cv m p :
  attraction_active m (updateParticle cv m p) ->
  velocity_capped (updateParticle cv m p).
Proof.
  intros (d & Hd & Hlt).
  pose proof (updateParticle_velocity cv m p) as Hv; cbv zeta in Hv.
  rewrite Hd in Hv.
  apply ltb_true in Hlt; rewrite Hlt in Hv.
  destruct Hv as [Hx Hy]; unfold velocity_capped; rewrite Hx, Hy.
  split; apply Rabs_le;
    match goal with
    | |- context [Js.Math_max _ (Js.Math_min 2 ?v)] =>
        pose proof (clamp_bounds 2 v ltac:(lra))
    end; lra.
Qed.

(** C1. Along any pointer trajectory, of any length, after every step on
    which attraction is active (the pointer is present and closer than
    100 px to the particle) both velocity components are at most 2 in
    absolute value; in particular after each step of a trajectory on which
    attraction is active throughout. *)
Theorem velocity_clamp_under_attraction (cv : Canvas) (mice : list Mouse) (p : Particle) :
  Forall (fun mq => attraction_active (fst mq) (snd mq)) (trajectory cv mice p) ->
  Forall (fun mq => velocity_capped (snd mq)) (trajectory cv mice p).
Proof.
  revert p; induction mice as [|m mice IH]; intros p H; cbn in *.
  - constructor.
  - inversion H as [|? ? Hact Hrest]; subst; cbn in Hact.
    constructor.
    + cbn. now apply attraction_caps_velocity.
    + now apply IH.
Qed.

(** Rewrites every comparison of concrete numbers in the goal to its value. *)
Ltac js_eval :=
  repeat match goal with
    | |- context [Js.gtb ?a ?b] =>
        first [ rewrite (proj2 (gtb_true a b)) by lra
              | rewrite (proj2 (gtb_false a b)) by lra ]
    | |- context [Js.ltb ?a ?b] =>
        first [ rewrite (proj2 (ltb_true a b)) by lra
              | rewrite (proj2 (ltb_false a b)) by lra ]
    | |- context [Js.leb ?a ?b] =>
        first [ rewrite (proj2 (leb_true a b)) by lra
              | rewrite (proj2 (leb_false a b)) by lra ]
    end.

Lemma drifting_pointer_distance :
  pointer_distance pointer_near (updateParticle canvas800 pointer_near drifting)
  = Some 5.
Proof.
  unfold pointer_distance; rewrite updateParticle_x, updateParticle_y.
  cbn. js_eval. unfold Js.Math_sqrt. f_equal.
  rewrite <- sqrt_3_4. f_equal. lra.
Qed.

Lemma velocity_clamp_under_attraction_witness :
  Forall (fun mq => attraction_active (fst mq) (snd mq))
         (trajectory canvas800 [pointer_near] drifting) /\
  Forall (fun mq => velocity_capped (snd mq))
         (trajectory canvas800 [pointer_near] drifting).
Proof.
  assert (H : Forall (fun mq => attraction_active (fst mq) (snd mq))
                     (trajectory canvas800 [pointer_near] drifting)).
  { constructor; [| constructor].
    exists 5; split; [apply drifting_pointer_distance | lra]. }
  split; [exact H |].
  exact (velocity_clamp_under_attraction canvas800 [pointer_near] drifting H).
Defined.

(** ** C10: friction alone when there is no attraction *)

(** C10. On a step where the pointer is absent or at 100 px or more from
    the particle, each velocity component is exactly multiplied by 0.99,
    so neither component grows in absolute value. *)
Theorem friction_only_without_attraction (cv : Canvas) (m : Mouse) (p : Particle) :
  attraction_idle m (updateParticle cv m p) ->
  vx (updateParticle cv m p) = vx p * 0.99 /\
  vy (updateParticle cv m p) = vy p * 0.99 /\
  Rabs (vx (updateParticle cv m p)) <= Rabs (vx p) /\
  Rabs (vy (updateParticle cv m p)) <= Rabs (vy p).
Proof.
  intros Hidle.
  assert (Hv : vx (updateParticle cv m p) = vx p * 0.99 /\
               vy (updateParticle cv m p) = vy p * 0.99).
  { pose proof (updateParticle_velocity cv m p) as Hv; cbv zeta in Hv.
    destruct Hidle as [Hnone | (d & Hd & Hfar)].
    - now rewrite Hnone in Hv.
    - rewrite Hd in Hv. apply ltb_false in Hfar. now rewrite Hfar in Hv. }
  destruct Hv as [Hx Hy]; rewrite Hx, Hy.
  repeat split; apply friction_shrinks.
Qed.

Lemma friction_only_without_attraction_witness :
  attraction_idle pointer_absent (updateParticle canvas800 pointer_absent drifting) /\
  vx (updateParticle canvas800 pointer_absent drifting) = 0.25 * 0.99.
Proof.
  assert (H : attraction_idle pointer_absent
                (updateParticle canvas800 pointer_absent drifting)).
  { left; reflexivity. }
  split; [exact H |].
  exact (proj1 (friction_only_without_attraction canvas800 pointer_absent drifting H)).
Defined.

(** ** C4: the stages of one update step *)

Lemma clamp_agrees v w :
  v = w ->
  Js.Math_max (- (2)) (Js.Math_min 2 v) * 0.99
  = Spec.clamp Spec.velocityCap w * 0.99.
Proof. intros ->; reflexivity. Qed.

Lemma wrap_agrees limit c :
  (if Js.gtb (if Js.ltb c 0 then limit else c) limit then 0
   else if Js.ltb c 0 then limit else c)
  = Spec.wrap_axis limit c.
Proof. unfold Spec.wrap_axis; cases_cmp; lra. Qed.

Lemma flip_agrees o d :
  (if Js.gtb o 0.8 || Js.ltb o 0.2 then d * -1 else d)
  = (if Js.leb 0.2 o && Js.leb o 0.8 then d else - d).
Proof. cases_cmp; cbn; lra. Qed.

(** C4. One update step is, in this order: (a) the position advanced by the
    velocity; (b) the opacity changed by its delta, whose sign flips when
    the opacity has left [[0.2, 0.8]]; (c) the position wrapped on each axis;
    (d) with the pointer present and closer than 100 px, the attraction
    term [(100 - distance) / 100 * 0.001] times the offset to the pointer
    added to the velocity, each component then clamped to [[-2, 2]]; (e) each
    velocity component multiplied by 0.99, attraction or not. *)
Theorem update_step_stages (cv : Canvas) (m : Mouse) (p : Particle) :
  updateParticle cv m p =
  Spec.friction (Spec.attract m (Spec.wrap cv (Spec.oscillate (Spec.advance p)))).
Proof.
  destruct p as [px py pvx pvy psz pc po pp].
  unfold updateParticle; cbv zeta.
  cbn [x y vx vy size color opacity pulse].
  rewrite !wrap_agrees, flip_agrees.
  unfold Spec.friction, Spec.attract, Spec.attracted, Spec.wrap, Spec.oscillate,
    Spec.advance, Spec.set_position, Spec.set_velocity, Spec.interactionRadius,
    Spec.frictionFactor, Spec.attractionConstant, Js.Math_sqrt.
  cbn [x y vx vy size color opacity pulse].
  destruct (mouse_x m) as [mx|], (mouse_y m) as [my|]; try reflexivity.
  destruct (Js.ltb _ 100); [| reflexivity].
  f_equal; apply clamp_agrees; lra.
Qed.

(** ** The particles [createParticles] makes *)

Lemma newParticle_run cv src k :
  newParticle cv src k = (particle_of_draws cv src k, (8 + k)%nat).
Proof. reflexivity. Qed.

Lemma createParticles_loop_run cv n :
  forall acc src k,
    createParticles_loop cv n acc src k =
    (acc ++ map (fun i => particle_of_draws cv src (k + 8 * i)) (seq 0 n),
     (k + 8 * n)%nat).
Proof.
  induction n as [|n IH]; intros acc src k.
  - cbn. now rewrite app_nil_r, Nat.add_0_r.
  - cbn [createParticles_loop]. unfold Random.bind.
    rewrite newParticle_run, IH.
    f_equal; [| lia].
    rewrite <- app_assoc. f_equal.
    cbn [seq map app]. rewrite Nat.mul_0_r, Nat.add_0_r. f_equal.
    rewrite <- seq_shift, map_map.
    apply map_ext; intros i. f_equal. lia.
Qed.

Lemma createParticles_run cv n src k :
  createParticles cv n src k =
  (map (fun i => particle_of_draws cv src (k + 8 * i)) (seq 0 n), (k + 8 * n)%nat).
Proof. unfold createParticles. now rewrite createParticles_loop_run. Qed.

Lemma createParticles_length cv n src k :
  List.length (fst (createParticles cv n src k)) = n.
Proof. rewrite createParticles_run; cbn. now rewrite length_map, length_seq. Qed.

Lemma createParticles_Forall (P : Particle -> Prop) cv n src k :
  (forall i, P (particle_of_draws cv src i)) ->
  Forall P (fst (createParticles cv n src k)).
Proof.
  intros H. rewrite createParticles_run; cbn.
  apply Forall_forall; intros p Hp.
  apply in_map_iff in Hp as (i & <- & _). apply H.
Qed.

(** ** Invariants of a session *)

Lemma run_invariant (I : ParticleSystem -> Prop) (src : nat -> R) :
  (forall e s k, I s -> I (fst (fst (handle e s src k)))) ->
  forall es s k, I s -> I (fst (fst (run es s src k))).
Proof.
  intros Hstep; induction es as [|e es IH]; intros s k Hs; cbn.
  - exact Hs.
  - unfold Random.bind.
    pose proof (Hstep e s k Hs) as H1.
    destruct (handle e s src k) as [[s1 o1] k1]; cbn in *.
    pose proof (IH s1 k1 H1) as H2.
    destruct (run es s1 src k1) as [[s2 o2] k2]; cbn in *.
    exact H2.
Qed.

Lemma session_invariant (I : ParticleSystem -> Prop) (src : nat -> R) :
  (forall w k, I (fst (fst (construct w src k)))) ->
  (forall e s k, I s -> I (fst (fst (handle e s src k)))) ->
  forall w es, I (fst (fst (session w es src 0%nat))).
Proof.
  intros Hinit Hstep w es. unfold session, Random.bind.
  pose proof (Hinit w 0%nat) as H0.
  destruct (construct w src 0%nat) as [[s0 o0] k0]; cbn in *.
  pose proof (run_invariant I src Hstep es s0 k0 H0) as H1.
  destruct (run es s0 src k0) as [[s1 o1] k1]; cbn in *.
  exact H1.
Qed.

(** An invariant of the particles alone that creation establishes and the
    update step keeps, and that does not look at the velocity, holds in
    every state of every session. *)
Lemma particles_invariant (P : Particle -> Prop) (src : nat -> R) :
  (forall cv k, P (particle_of_draws cv src k)) ->
  (forall cv m p, P p -> P (updateParticle cv m p)) ->
  (forall p v, P p ->
     P {| x := x p; y := y p; vx := vx p; vy := v; size := size p;
          color := color p; opacity := opacity p; pulse := pulse p |}) ->
  forall w es, Forall P (particles (fst (fst (session w es src 0%nat)))).
Proof.
  intros Hnew Hupd Hvy.
  assert (Hanim : forall s, Forall P (particles s) ->
                            Forall P (particles (fst (animate s)))).
  { intros s Hs; cbn. unfold updateParticles.
    apply Forall_forall; intros q Hq.
    apply in_map_iff in Hq as (p & <- & Hp).
    apply Hupd. revert p Hp. now apply Forall_forall. }
  apply (session_invariant (fun s => Forall P (particles s))).
  - intros w k. unfold construct, Random.bind.
    pose proof (createParticles_Forall P (resizeCanvas w) (getParticleCount w)
                  src k (fun i => Hnew _ i)) as Hc.
    destruct (createParticles _ _ src k) as [ps k1]; cbn [fst snd] in *.
    unfold Random.ret. cbn [fst]. now apply Hanim.
  - intros e s k Hs; destruct e; cbn [handle].
    + now apply Hanim.
    + exact Hs.
    + exact Hs.
    + unfold Random.bind.
      pose proof (createParticles_Forall P (resizeCanvas w) (getParticleCount w)
                    src k (fun i => Hnew _ i)) as Hc.
      destruct (createParticles _ _ src k) as [ps k1]; cbn in *. exact Hc.
    + cbn. apply Forall_forall; intros q Hq.
      apply in_map_iff in Hq as (p & <- & Hp).
      apply Hvy. revert p Hp. now apply Forall_forall.
    + exact Hs.
Qed.

(** The state the constructor leaves: the created particles after the one
    step of its call of [animate()]. *)
Lemma construct_particles w src k :
  particles (fst (fst (construct w src k))) =
  map (updateParticle (resizeCanvas w) {| mouse_x := None; mouse_y := None |})
      (map (fun i => particle_of_draws (resizeCanvas w) src (k + 8 * i))
           (seq 0 (getParticleCount w))).
Proof.
  unfold construct, Random.bind. rewrite createParticles_run. reflexivity.
Qed.

Lemma session_nil_particles w src :
  particles (fst (fst (session w [] src 0%nat))) =
  particles (fst (fst (construct w src 0%nat))).
Proof.
  unfold session, Random.bind.
  destruct (construct w src 0%nat) as [[s0 o0] k0]; reflexivity.
Qed.

(** ** C2: the wrap invariant *)

Lemma zero_draws_unit : Random.unit_draws zero_draws.
Proof. intros k; unfold zero_draws; lra. Qed.

Lemma canvas_of_window800 : resizeCanvas window800 = canvas800.
Proof.
  unfold resizeCanvas, canvas800, window800; cbn [innerWidth innerHeight].
  rewrite !INR_IZR_INZ. reflexivity.
Qed.

(** With every draw 0 the first particle is created on the left and top
    edges, moving up and to the left. *)
Lemma first_particle_zero_draws :
  let p := particle_of_draws canvas800 zero_draws 0 in
  x p = 0 /\ y p = 0 /\ vx p = -0.25 /\ vy p = -0.25.
Proof. unfold particle_of_draws, zero_draws; cbn. lra. Qed.

Lemma first_particle_in_session w src :
  (0 < getParticleCount w)%nat ->
  In (updateParticle (resizeCanvas w) {| mouse_x := None; mouse_y := None |}
        (particle_of_draws (resizeCanvas w) src 0))
     (particles (fst (fst (session w [] src 0%nat)))).
Proof.
  intros Hn. rewrite session_nil_particles, construct_particles.
  apply in_map, in_map_iff. exists 0%nat; split; [reflexivity |].
  apply in_seq; lia.
Qed.

(** C2, as stated, fails: on an 800 x 600 window with every draw 0, the
    constructor (creation and one update step) leaves a particle whose
    [x] is exactly the canvas width. *)
Lemma wrap_invariant_counterexample :
  ~ Forall (inside_half_open (resizeCanvas window800))
      (particles (fst (fst (session window800 [] zero_draws 0%nat)))).
Proof.
  intros H. rewrite Forall_forall in H.
  specialize (H _ (first_particle_in_session window800 zero_draws
                     ltac:(cbn; lia))).
  destruct H as [[_ Hx] _]. revert Hx.
  rewrite updateParticle_x, canvas_of_window800.
  unfold particle_of_draws, zero_draws; cbn. js_eval. lra.
Qed.

(** C2, amended. After every update step the position of the particle
    lies in the closed rectangle: [0 <= x <= width] and [0 <= y <= height],
    for the canvas of any window. *)
Theorem wrap_invariant_closed (w : Window) (m : Mouse) (p : Particle) :
  inside_closed (resizeCanvas w) (updateParticle (resizeCanvas w) m p).
Proof.
  unfold inside_closed. rewrite updateParticle_x, updateParticle_y.
  unfold resizeCanvas; cbn [width height].
  pose proof (pos_INR (innerWidth w)). pose proof (pos_INR (innerHeight w)).
  cbv zeta. split; cases_cmp; lra.
Qed.

(** ** C3: the opacity pulse *)

Lemma bright_draws_unit : Random.unit_draws bright_draws.
Proof. intros k. unfold bright_draws. destruct k as [|[|[|[|[|[|[|k]]]]]]]; lra. Qed.

(** C3, as stated, fails: with draws in [[0, 1)] that give the first
    particle the opacity 0.796875 and the delta 0.015625, the constructor
    (creation and one update step) leaves it with the opacity 0.8125,
    above 0.8. *)
Lemma opacity_bounds_counterexample :
  ~ Forall (fun p => 0.2 <= opacity p <= 0.8)
      (particles (fst (fst (session window800 [] bright_draws 0%nat)))).
Proof.
  intros H. rewrite Forall_forall in H.
  specialize (H _ (first_particle_in_session window800 bright_draws
                     ltac:(cbn; lia))).
  revert H. rewrite updateParticle_opacity.
  unfold particle_of_draws, bright_draws; cbn. lra.
Qed.

Lemma overshoot_bounded_created cv src k :
  Random.unit_draws src -> overshoot_bounded (particle_of_draws cv src k).
Proof.
  intros Hsrc. unfold overshoot_bounded, particle_of_draws; cbn.
  pose proof (Hsrc (6 + k)%nat). pose proof (Hsrc (7 + k)%nat).
  cbn in *. rewrite Rabs_pos_eq by lra. split; [lra |]. left; lra.
Qed.

Lemma overshoot_bounded_step cv m p :
  overshoot_bounded p -> overshoot_bounded (updateParticle cv m p).
Proof.
  unfold overshoot_bounded.
  rewrite updateParticle_opacity, updateParticle_pulse.
  unfold Rabs at 1 2 3 4 5 6.
  cases_cmp; cbn [orb]; unfold Rabs;
    repeat match goal with
      | |- context [Rcase_abs ?v] => destruct (Rcase_abs v)
      end; intros [Hp Ho]; (split; [lra |]); lra || (left; lra) ||
      (right; left; lra) || (right; right; lra).
Qed.

(** C3, amended. In every state of every session (so after every update
    step) the opacity of every particle is inside [[0.2, 0.8]] or past a
    bound by at most one delta, the delta smaller than 0.03 and pointing
    back inside; and a step never clamps: it adds the delta to the opacity
    and negates the delta exactly when the new opacity is outside
    [[0.2, 0.8]]. *)
Theorem opacity_overshoot_bounded (w : Window) (es : list Event) (src : nat -> R) :
  Random.unit_draws src ->
  Forall overshoot_bounded (particles (fst (fst (session w es src 0%nat)))) /\
  (forall cv m p,
     opacity (updateParticle cv m p) = opacity p + pulse p /\
     pulse (updateParticle cv m p) =
       if Js.gtb (opacity p + pulse p) 0.8 || Js.ltb (opacity p + pulse p) 0.2
       then - pulse p else pulse p).
Proof.
  intros Hsrc; split.
  - apply particles_invariant.
    + intros cv k. now apply overshoot_bounded_created.
    + intros cv m p. apply overshoot_bounded_step.
    + intros p v H; exact H.
  - intros cv m p. rewrite updateParticle_opacity, updateParticle_pulse.
    split; [reflexivity |]. destruct (_ || _); lra.
Qed.

Lemma opacity_overshoot_bounded_witness :
  Random.unit_draws half_draws /\
  Forall overshoot_bounded
    (particles (fst (fst (session window800 [Frame; Frame] half_draws 0%nat)))).
Proof.
  assert (H : Random.unit_draws half_draws).
  { intros k; unfold half_draws; lra. }
  split; [exact H |].
  exact (proj1 (opacity_overshoot_bounded window800 [Frame; Frame] half_draws H)).
Defined.

(** ** C7: resize *)

Lemma not_low_end width' height' cores :
  (4 <= cores)%nat -> isLowEnd (window_of width' height' cores) = false.
Proof.
  unfold isLowEnd, window_of; cbn [hardwareConcurrency]; intros H.
  destruct cores as [|n]; [reflexivity |].
  apply Nat.ltb_ge; exact H.
Qed.

Lemma resize_particles s w src k :
  particles (fst (fst (handle (Resize w) s src k))) =
  fst (createParticles (resizeCanvas w) (getParticleCount w) src k).
Proof.
  cbn [handle]; unfold Random.bind.
  destruct (createParticles _ _ src k) as [ps k1]; reflexivity.
Qed.

(** C7. The resize handler replaces the particle collection by a newly
    created one, whatever the old one was, with [getParticleCount]
    particles for the new window; with at least 4 cores that is 30
    particles at width 500, 50 at width 900 and 80 at width 1400. *)
Theorem resize_recreates_by_tier
    (s : ParticleSystem) (src : nat -> R) (k height' cores : nat) :
  (4 <= cores)%nat ->
  (forall w,
     particles (fst (fst (handle (Resize w) s src k))) =
       fst (createParticles (resizeCanvas w) (getParticleCount w) src k) /\
     List.length (particles (fst (fst (handle (Resize w) s src k)))) =
       getParticleCount w) /\
  List.length
    (particles (fst (fst (handle (Resize (window_of 500 height' cores)) s src k))))
    = 30%nat /\
  List.length
    (particles (fst (fst (handle (Resize (window_of 900 height' cores)) s src k))))
    = 50%nat /\
  List.length
    (particles (fst (fst (handle (Resize (window_of 1400 height' cores)) s src k))))
    = 80%nat.
Proof.
  intros Hc.
  assert (Hlen : forall w,
    List.length (particles (fst (fst (handle (Resize w) s src k)))) =
    getParticleCount w).
  { intros w. rewrite resize_particles. apply createParticles_length. }
  split; [intros w; split; [apply resize_particles | apply Hlen] |].
  rewrite !Hlen. unfold getParticleCount.
  rewrite !not_low_end by exact Hc. cbn [innerWidth window_of].
  repeat split; reflexivity.
Qed.

Lemma resize_recreates_by_tier_witness :
  (4 <= 8)%nat /\
  List.length
    (particles
       (fst (fst (handle (Resize (window_of 900 700 8))
                    {| window := window800; canvas := canvas800;
                       particles := [drifting]; particleCount := 1;
                       mouse := pointer_absent; pauseAnimation := None |}
                    zero_draws 0%nat))))
  = 50%nat.
Proof.
  assert (H : (4 <= 8)%nat) by lia.
  split; [exact H |].
  exact (proj1 (proj2 (proj2
    (resize_recreates_by_tier
       {| window := window800; canvas := canvas800;
          particles := [drifting]; particleCount := 1;
          mouse := pointer_absent; pauseAnimation := None |}
       zero_draws 0 700 8 H)))).
Defined.

(** ** C8: the pause flag *)

(** C8 fails on the code: [animate] does not read [pauseAnimation]. For
    every state, after the tab became hidden the flag is set, and the next
    frame callback still updates every particle, redraws the canvas and
    asks for the next frame. *)
Theorem hidden_tab_frame_still_runs (s : ParticleSystem) (src : nat -> R) (k : nat) :
  let hidden := fst (fst (handle (VisibilityChange true) s src k)) in
  let after := fst (handle Frame hidden src k) in
  pauseAnimation hidden = Some true /\
  particles (fst after) = updateParticles (canvas s) (mouse s) (particles s) /\
  drawn (snd after) = drawParticles (canvas s) (particles (fst after)) /\
  requestedFrame (snd after) = true /\
  after = (let (s', out) := animate s in
           ({| window := window s'; canvas := canvas s';
               particles := particles s'; particleCount := particleCount s';
               mouse := mouse s'; pauseAnimation := Some true |}, out)).
Proof. cbn. repeat split. Qed.

(** On the particle [bright] the frame of a hidden tab moves the opacity. *)
Lemma hidden_tab_frame_moves_particle :
  let s := {| window := window800; canvas := canvas800; particles := [bright];
              particleCount := 1; mouse := pointer_absent;
              pauseAnimation := None |} in
  let hidden := fst (fst (handle (VisibilityChange true) s zero_draws 0%nat)) in
  map opacity (particles (fst (fst (handle Frame hidden zero_draws 0%nat))))
  = [0.8125].
Proof. cbn. f_equal. lra. Qed.

(** ** C9: determinism *)

Lemma particle_of_draws_ext cv src1 src2 k :
  (forall j, (j < 8)%nat -> src1 (j + k)%nat = src2 (j + k)%nat) ->
  particle_of_draws cv src1 k = particle_of_draws cv src2 k.
Proof.
  intros H. unfold particle_of_draws.
  change (src1 k) with (src1 (0 + k)%nat).
  rewrite (H 0%nat), (H 1%nat), (H 2%nat), (H 3%nat), (H 4%nat), (H 5%nat),
    (H 6%nat), (H 7%nat) by lia.
  reflexivity.
Qed.

Lemma createParticles_ext cv n src1 src2 k :
  (forall i, (k <= i < k + 8 * n)%nat -> src1 i = src2 i) ->
  createParticles cv n src1 k = createParticles cv n src2 k.
Proof.
  intros H. rewrite !createParticles_run. f_equal.
  apply map_ext_in; intros i Hi. apply in_seq in Hi.
  apply particle_of_draws_ext; intros j Hj. apply H. lia.
Qed.

Lemma handle_ext e s src1 src2 k :
  is_resize e = false -> handle e s src1 k = handle e s src2 k.
Proof. destruct e; intros H; try discriminate; reflexivity. Qed.

Lemma run_ext es src1 src2 :
  fixed_viewport es = true ->
  forall s k, run es s src1 k = run es s src2 k.
Proof.
  induction es as [|e es IH]; intros Hes s k; [reflexivity |].
  cbn in Hes. apply andb_prop in Hes as [He Hes].
  apply negb_true_iff in He.
  cbn [run]; unfold Random.bind.
  rewrite (handle_ext e s src1 src2 k He).
  destruct (handle e s src2 k) as [[s1 o1] k1].
  cbn [fst snd]. rewrite (IH Hes s1 k1). reflexivity.
Qed.

(** C9. Two sessions on the same window and the same events (frames,
    pointer moves and leaves, scrolls, visibility changes; the viewport
    size fixed) whose random sequences agree on the draws of the
    initialization, 8 for each particle, produce the same particle
    collection, the same drawings and the same state after every event. *)
Theorem deterministic_replay
    (w : Window) (es : list Event) (src1 src2 : nat -> R) :
  fixed_viewport es = true ->
  (forall i, (i < 8 * getParticleCount w)%nat -> src1 i = src2 i) ->
  session w es src1 0%nat = session w es src2 0%nat.
Proof.
  intros Hes Hsrc. unfold session, Random.bind.
  assert (Hc : construct w src1 0%nat = construct w src2 0%nat).
  { unfold construct, Random.bind.
    rewrite (createParticles_ext _ _ src1 src2 0%nat); [reflexivity |].
    intros i Hi. apply Hsrc. lia. }
  rewrite Hc. destruct (construct w src2 0%nat) as [[s0 o0] k0].
  cbn [fst snd]. rewrite (run_ext es src1 src2 Hes s0 k0). reflexivity.
Qed.

Lemma deterministic_replay_witness :
  session (window_of 500 700 8)
    [MouseMove 3.25 4.25; Frame; MouseLeave; Frame] zero_draws 0%nat
  = session (window_of 500 700 8)
      [MouseMove 3.25 4.25; Frame; MouseLeave; Frame] late_draws 0%nat.
Proof.
  apply (deterministic_replay (window_of 500 700 8)
           [MouseMove 3.25 4.25; Frame; MouseLeave; Frame] zero_draws late_draws).
  - reflexivity.
  - intros i Hi. unfold zero_draws, late_draws.
    change (8 * getParticleCount (window_of 500 700 8))%nat with 240%nat in Hi.
    apply Nat.ltb_lt in Hi. rewrite Hi. reflexivity.
Defined.

(** ** C5: the connection lines *)

Lemma connection_eq ps i j pi pj :
  nth_error ps i = Some pi -> nth_error ps j = Some pj ->
  connection ps i j =
  if Js.ltb (separation pi pj) 120 then Some (link pi pj) else None.
Proof. unfold connection; intros -> ->; reflexivity. Qed.

Lemma in_drawConnections_pairs ps i j s :
  In (i, j, s) (drawConnections_pairs ps) <->
  (i < j < List.length ps)%nat /\ connection ps i j = Some s.
Proof.
  unfold drawConnections_pairs; rewrite in_flat_map; split.
  - intros (i' & Hi' & Hin). apply in_flat_map in Hin as (j' & Hj' & Hin).
    apply in_seq in Hi', Hj'.
    destruct (connection ps i' j') as [s'|] eqn:E; cbn in Hin; [| tauto].
    destruct Hin as [Heq | []]. inversion Heq; subst. split; [lia | exact E].
  - intros [Hij E]. exists i; split; [apply in_seq; lia |].
    apply in_flat_map. exists j; split; [apply in_seq; lia |].
    rewrite E; left; reflexivity.
Qed.

Lemma NoDup_flat_map {A B : Type} (f : A -> list B) (l : list A) :
  NoDup l ->
  (forall a, In a l -> NoDup (f a)) ->
  (forall a b c, In a l -> In b l -> In c (f a) -> In c (f b) -> a = b) ->
  NoDup (flat_map f l).
Proof.
  induction l as [|a l IH]; intros Hl Hf Hdisj; cbn; [constructor |].
  inversion Hl as [|? ? Hnotin Hl']; subst.
  apply NoDup_app.
  - apply Hf; now left.
  - apply IH; auto.
    + intros b Hb; apply Hf; now right.
    + intros b c d Hb Hc; apply Hdisj; now right.
  - intros c Hc Hin. apply in_flat_map in Hin as (b & Hb & Hcb).
    assert (a = b) by (apply (Hdisj a b c); auto; [now left | now right]).
    subst b; contradiction.
Qed.

Lemma drawConnections_pairs_NoDup ps : NoDup (drawConnections_pairs ps).
Proof.
  unfold drawConnections_pairs.
  apply NoDup_flat_map; [apply seq_NoDup | |].
  - intros i _. apply NoDup_flat_map; [apply seq_NoDup | |].
    + intros j _. destruct (connection ps i j); repeat constructor; auto.
    + intros j j' c _ _ Hc Hc'.
      destruct (connection ps i j); [| contradiction].
      destruct (connection ps i j'); [| contradiction].
      destruct Hc as [<- | []]. destruct Hc' as [Heq | []].
      now inversion Heq.
  - intros i i' c _ _ Hc Hc'.
    apply in_flat_map in Hc as (j & _ & Hc).
    apply in_flat_map in Hc' as (j' & _ & Hc').
    destruct (connection ps i j); [| contradiction].
    destruct (connection ps i' j'); [| contradiction].
    destruct Hc as [<- | []]. destruct Hc' as [Heq | []].
    now inversion Heq.
Qed.

Lemma separation_120 : separation at_origin at_120 = 120.
Proof.
  unfold separation; cbn.
  replace ((0 - 120) * (0 - 120) + (0 - 0) * (0 - 0)) with (120 * 120) by lra.
  apply sqrt_square; lra.
Qed.

Lemma separation_5 : separation at_origin at_3_4 = 5.
Proof.
  unfold separation; cbn. rewrite <- sqrt_3_4. f_equal. lra.
Qed.

(** C5, as stated, fails: for two particles exactly 120 px apart the
    render pass draws no line at all, so none of opacity 0. *)
Lemma connection_at_threshold_counterexample :
  ~ (exists s, In (StrokeLine s) (drawConnections [at_origin; at_120]) /\
               stroke_globalAlpha s = 0).
Proof.
  intros (s & Hin & _). unfold drawConnections in Hin.
  apply in_map_iff in Hin as ([[i j] s'] & _ & Hin).
  apply in_drawConnections_pairs in Hin as [Hij E].
  cbn in Hij. assert (i = 0%nat /\ j = 1%nat) as [-> ->] by lia.
  rewrite (connection_eq [at_origin; at_120] 0 1 at_origin at_120 eq_refl eq_refl) in E.
  rewrite separation_120 in E. revert E. js_eval. discriminate.
Qed.

(** C5, amended. For the particles at two indices [i < j], the render
    pass draws a line for the pair exactly when their distance is strictly
    below 120 px, and the line is [link]: from the first to the second, of
    opacity [(1 - distance / 120) * 0.2]. At exactly 120 px no line is drawn;
    at 0 px the line has the opacity 0.2. Lines are drawn for pairs
    [i < j] only and no pair is drawn twice. *)
Theorem connections_below_threshold
    (ps : list Particle) (i j : nat) (pi pj : Particle) :
  nth_error ps i = Some pi ->
  nth_error ps j = Some pj ->
  (i < j)%nat ->
  (forall s, In (i, j, s) (drawConnections_pairs ps) <->
             separation pi pj < 120 /\ s = link pi pj) /\
  (separation pi pj = 120 ->
   forall s, ~ In (i, j, s) (drawConnections_pairs ps)) /\
  (separation pi pj = 0 ->
   In (i, j, link pi pj) (drawConnections_pairs ps) /\
   stroke_globalAlpha (link pi pj) = 0.2) /\
  (forall i' j' s, In (i', j', s) (drawConnections_pairs ps) ->
                   (i' < j' < List.length ps)%nat) /\
  NoDup (drawConnections_pairs ps) /\
  drawConnections ps = map (fun t => StrokeLine (snd t)) (drawConnections_pairs ps).
Proof.
  intros Hi Hj Hij.
  assert (Hlen : (j < List.length ps)%nat).
  { apply nth_error_Some. rewrite Hj; discriminate. }
  assert (Hiff : forall s, In (i, j, s) (drawConnections_pairs ps) <->
                           separation pi pj < 120 /\ s = link pi pj).
  { intros s. rewrite in_drawConnections_pairs, (connection_eq _ _ _ _ _ Hi Hj).
    destruct (Js.ltb (separation pi pj) 120) eqn:E.
    - apply ltb_true in E. split.
      + intros [_ Heq]; inversion Heq; auto.
      + intros [_ ->]; split; [lia | reflexivity].
    - apply ltb_false in E. split.
      + intros [_ Heq]; discriminate.
      + intros [Hlt _]; lra. }
  split; [exact Hiff |].
  split; [intros H120 s Hin; apply Hiff in Hin as [Hlt _]; lra |].
  split.
  { intros H0; split.
    - apply Hiff. split; [lra | reflexivity].
    - unfold link; cbn. rewrite H0. lra. }
  split; [intros i' j' s Hin; apply in_drawConnections_pairs in Hin; tauto |].
  split; [apply drawConnections_pairs_NoDup | reflexivity].
Qed.

Lemma connections_below_threshold_witness :
  nth_error [at_origin; at_3_4] 0 = Some at_origin /\
  nth_error [at_origin; at_3_4] 1 = Some at_3_4 /\
  (0 < 1)%nat /\
  In (0%nat, 1%nat, link at_origin at_3_4)
     (drawConnections_pairs [at_origin; at_3_4]).
Proof.
  repeat split; [lia |].
  apply (proj1 (connections_below_threshold [at_origin; at_3_4] 0 1
                  at_origin at_3_4 eq_refl eq_refl ltac:(lia))).
  split; [rewrite separation_5; lra | reflexivity].
Defined.

(** ** C6: the explosion *)

Module ExplosionFacts.
Import Explosion.

Lemma nth_error_middle {A} (b : list A) e r :
  nth_error (b ++ e :: r) (List.length b) = Some e.
Proof. induction b as [|h b IH]; cbn; auto. Qed.

Lemma assign_middle {A} (b : list A) e e' r :
  Js.assign (List.length b) e' (b ++ e :: r) = b ++ e' :: r.
Proof. induction b as [|h b IH]; cbn; [reflexivity | now rewrite IH]. Qed.

Lemma splice1_middle {A} (b : list A) e r :
  Js.splice1 (List.length b) (b ++ e :: r) = b ++ r.
Proof.
  unfold Js.splice1. induction b as [|h b IH]; cbn; [reflexivity |].
  now rewrite <- IH.
Qed.

(** Indices at or past the end of the array are not visited. *)
Lemma forEach_loop_beyond {A} (cb : A -> nat -> list A -> list A) n :
  forall k a, (List.length a <= k)%nat -> Js.forEach_loop cb n k a = a.
Proof.
  induction n as [|n IH]; intros k a Hk; cbn; [reflexivity |].
  destruct (nth_error a k) eqn:E.
  - apply nth_error_None in Hk. congruence.
  - apply IH. lia.
Qed.

Lemma callback_survives b p r :
  survives p ->
  callback p (List.length b) (b ++ p :: r) = b ++ age p :: r.
Proof.
  unfold callback, survives; intros H. rewrite assign_middle.
  cbn [life age]. rewrite (proj2 (leb_false _ _)) by lra. reflexivity.
Qed.

Lemma callback_expires b p r :
  expires p ->
  callback p (List.length b) (b ++ p :: r) = b ++ r.
Proof.
  unfold callback, expires; intros H. rewrite assign_middle.
  cbn [life age]. rewrite (proj2 (leb_true _ _)) by lra.
  apply splice1_middle.
Qed.

(** While no spark expires, a step ages every spark. *)
Lemma forEach_loop_survive rest :
  forall b, Forall survives rest ->
    Js.forEach_loop callback (List.length rest) (List.length b) (b ++ rest)
    = b ++ map age rest.
Proof.
  induction rest as [|p r IH]; intros b H; [reflexivity |].
  inversion H as [|? ? Hp Hr]; subst.
  cbn [List.length Js.forEach_loop].
  rewrite nth_error_middle, callback_survives by exact Hp.
  specialize (IH (b ++ [age p]) Hr).
  rewrite length_app, Nat.add_1_r, <- !app_assoc in IH.
  exact IH.
Qed.

Lemma forEach_survive a :
  Forall survives a -> Js.forEach callback a = map age a.
Proof. intros H. exact (forEach_loop_survive a [] H). Qed.

Lemma pair_induction {A} (P : list A -> Prop) :
  P [] -> (forall e, P [e]) -> (forall d e r, P r -> P (d :: e :: r)) ->
  forall l, P l.
Proof.
  intros H0 H1 H2.
  assert (H : forall l, P l /\ (forall d, P (d :: l))).
  { induction l as [|e l [IHl IHl']]; split; auto. }
  intros l; apply H.
Qed.

(** When every spark expires on the same step, each removal moves the
    next spark under the index just visited: the step removes the sparks
    at the even positions and neither ages nor removes the others. *)
Lemma forEach_loop_expire rest :
  forall b, Forall expires rest ->
    Js.forEach_loop callback (List.length b + List.length rest)
      (List.length b) (b ++ rest)
    = b ++ odds rest.
Proof.
  induction rest as [| p | p q r IH] using pair_induction; intros b H.
  - apply forEach_loop_beyond. rewrite length_app, Nat.add_0_r. apply le_n.
  - inversion H as [|? ? Hp _]; subst.
    cbn [List.length]. rewrite Nat.add_1_r. cbn [Js.forEach_loop].
    rewrite nth_error_middle, callback_expires by exact Hp.
    cbn [odds]. rewrite !app_nil_r. apply forEach_loop_beyond. lia.
  - inversion H as [|? ? Hp Hqr]; subst.
    inversion Hqr as [|? ? _ Hr]; subst.
    cbn [List.length odds]. rewrite <- !plus_n_Sm. cbn [Js.forEach_loop].
    rewrite nth_error_middle, callback_expires by exact Hp.
    specialize (IH (b ++ [q]) Hr).
    rewrite length_app, Nat.add_1_r, <- !app_assoc in IH.
    cbn [app Nat.add] in IH. exact IH.
Qed.

Lemma forEach_expire a :
  Forall expires a -> Js.forEach callback a = odds a.
Proof. intros H. exact (forEach_loop_expire a [] H). Qed.

Lemma odds_map {A B} (f : A -> B) l : odds (map f l) = map f (odds l).
Proof.
  induction l as [| e | d e r IH] using pair_induction; cbn; auto.
  now rewrite IH.
Qed.

Lemma odds_Forall {A} (P : A -> Prop) l : Forall P l -> Forall P (odds l).
Proof.
  induction l as [| e | d e r IH] using pair_induction; cbn; auto.
  intros H. inversion H as [|? ? _ H']; subst.
  inversion H' as [|? ? He Hr]; subst. constructor; auto.
Qed.

(** ** Several steps *)

Lemma animateExplosion_nil : animateExplosion [] = ([], {| drawn := []; requestedFrame := false |}).
Proof. reflexivity. Qed.

Lemma steps_nil n : steps n [] = [].
Proof. destruct n; reflexivity. Qed.

Lemma steps_succ n a : steps (S n) a = steps n (Js.forEach callback a).
Proof.
  cbn [steps]. unfold animateExplosion. cbn [requestedFrame].
  destruct (Js.forEach callback a) as [|e l]; cbn.
  - now rewrite steps_nil.
  - reflexivity.
Qed.

Lemma steps_one a : steps 1 a = Js.forEach callback a.
Proof. now rewrite steps_succ. Qed.

Lemma steps_add n m a : steps (n + m) a = steps m (steps n a).
Proof.
  revert a; induction n as [|n IH]; intros a; [reflexivity |].
  cbn [Nat.add]. now rewrite !steps_succ, IH.
Qed.

Lemma life_iter_age n p :
  life (Nat.iter n age p) = life p - INR n * decay p /\
  decay (Nat.iter n age p) = decay p.
Proof.
  induction n as [|n [IHl IHd]].
  - cbn. split; [lra | reflexivity].
  - rewrite S_INR. change (Nat.iter (S n) age p) with (age (Nat.iter n age p)).
    cbn [life decay age].
    rewrite IHl, IHd. split; [lra | reflexivity].
Qed.

(** While the lives last, [n] steps age every spark [n] times. *)
Lemma steps_survive n :
  forall a,
    Forall (fun p => 0 <= decay p /\ INR n * decay p < life p) a ->
    steps n a = map (Nat.iter n age) a.
Proof.
  induction n as [|n IH]; intros a H.
  - cbn. now rewrite map_id.
  - rewrite steps_succ, forEach_survive.
    + rewrite IH.
      * rewrite map_map. apply map_ext; intros p.
        symmetry. apply Nat.iter_succ_r.
      * apply Forall_forall; intros q Hq.
        apply in_map_iff in Hq as (p & <- & Hp).
        rewrite Forall_forall in H. specialize (H p Hp).
        rewrite S_INR in H. cbn [life decay age]. lra.
    + apply Forall_forall; intros p Hp.
      rewrite Forall_forall in H. specialize (H p Hp).
      rewrite S_INR in H. pose proof (pos_INR n).
      unfold survives. nra.
Qed.

End ExplosionFacts.

Module ExplosionRun.
Import Explosion ExplosionFacts.

Lemma newSpark_run x0 y0 i src k :
  newSpark x0 y0 i src k = (spark_of_draws x0 y0 src i k, (4 + k)%nat).
Proof. reflexivity. Qed.

Lemma create_loop_run x0 y0 n :
  forall i acc src k,
    create_loop x0 y0 n i acc src k =
    (acc ++ map (fun t => spark_of_draws x0 y0 src (i + t) (k + 4 * t)) (seq 0 n),
     (k + 4 * n)%nat).
Proof.
  induction n as [|n IH]; intros i acc src k.
  - cbn. now rewrite app_nil_r, Nat.add_0_r.
  - cbn [create_loop]. unfold Random.bind.
    rewrite newSpark_run, IH.
    f_equal; [| lia].
    rewrite <- app_assoc. f_equal.
    cbn [seq map app]. rewrite Nat.mul_0_r, !Nat.add_0_r. f_equal.
    rewrite <- seq_shift, map_map.
    apply map_ext; intros t. f_equal; lia.
Qed.

Lemma create_run x0 y0 src k :
  create x0 y0 src k =
  (map (fun t => spark_of_draws x0 y0 src t (k + 4 * t)) (seq 0 particleCount),
   (k + 4 * particleCount)%nat).
Proof. unfold create. now rewrite create_loop_run. Qed.

Lemma odds_length {A} (l : list A) :
  List.length (odds l) = Nat.div2 (List.length l).
Proof.
  induction l as [| e | d e r IH] using pair_induction; cbn; auto.
Qed.

Lemma burst_length : List.length burst = 15%nat.
Proof.
  unfold burst. rewrite create_run. cbn [fst].
  now rewrite length_map, length_seq.
Qed.

Lemma burst_sparks :
  Forall (fun p => life p = 1 /\ decay p = 0.015625) burst.
Proof.
  unfold burst. rewrite create_run. cbn [fst].
  apply Forall_forall; intros p Hp.
  apply in_map_iff in Hp as (t & <- & _).
  unfold spark_of_draws, burst_draws; cbn [life decay]. lra.
Qed.

Lemma INR_63 : INR 63 = 63.
Proof. rewrite INR_IZR_INZ. reflexivity. Qed.

Lemma steps_63 : steps 63 burst = aged63.
Proof.
  apply steps_survive.
  eapply Forall_impl; [| exact burst_sparks].
  intros p [Hl Hd]. rewrite Hl, Hd, INR_63. lra.
Qed.

Lemma aged63_sparks :
  Forall (fun p => life p = 0.015625 /\ decay p = 0.015625) aged63.
Proof.
  unfold aged63. apply Forall_forall; intros q Hq.
  apply in_map_iff in Hq as (p & <- & Hp).
  pose proof burst_sparks as H. rewrite Forall_forall in H.
  destruct (H p Hp) as [Hl Hd].
  destruct (life_iter_age 63 p) as [Hl' Hd'].
  rewrite Hl', Hd', Hl, Hd, INR_63. lra.
Qed.

Lemma aged63_expires : Forall expires aged63.
Proof.
  eapply Forall_impl; [| exact aged63_sparks].
  intros p [Hl Hd]. unfold expires. lra.
Qed.

Lemma aged63_length : List.length aged63 = 15%nat.
Proof. unfold aged63. rewrite length_map. apply burst_length. Qed.

Lemma steps_64 : steps 64 burst = odds aged63.
Proof.
  change 64%nat with (63 + 1)%nat.
  rewrite steps_add, steps_63, steps_one.
  apply forEach_expire, aged63_expires.
Qed.

Lemma steps_after_64 n :
  steps (64 + n) burst = Nat.iter n odds (odds aged63) /\
  Forall expires (Nat.iter n odds (odds aged63)).
Proof.
  induction n as [|n [IH1 IH2]].
  - rewrite Nat.add_0_r, steps_64. split; [reflexivity |].
    apply odds_Forall, aged63_expires.
  - replace (64 + S n)%nat with ((64 + n) + 1)%nat by lia.
    rewrite steps_add, IH1, steps_one.
    change (Nat.iter (S n) odds (odds aged63))
      with (odds (Nat.iter n odds (odds aged63))).
    split; [now apply forEach_expire | now apply odds_Forall].
Qed.

Lemma ceil_of_decay : Zceil (1 / 0.015625) = 64%Z.
Proof. apply Zceil_eq. lra. Qed.

End ExplosionRun.

(** C6 fails on the code. A click makes the 15 sparks of a burst; with
    every draw 0.28125 each has life 1 and decay 0.015625, and
    [ceil(1 / 0.015625) = 64]. After 64 animation steps 7 of the 15 are
    still in the collection, each with life 0.015625: step 64 removes the
    sparks at the even positions and skips the others, which reach life 0
    and leave one step late each time they are skipped. One spark is left
    after 66 steps and the collection is empty after 67. *)
Theorem explosion_outlives_ceil :
  List.length Explosion.burst = 15%nat /\
  Forall (fun p => Explosion.life p = 1 /\ Explosion.decay p = 0.015625)
    Explosion.burst /\
  Zceil (1 / 0.015625) = 64%Z /\
  List.length (Explosion.steps 64 Explosion.burst) = 7%nat /\
  Forall (fun p => Explosion.life p = 0.015625)
    (Explosion.steps 64 Explosion.burst) /\
  List.length (Explosion.steps 66 Explosion.burst) = 1%nat /\
  Explosion.steps 67 Explosion.burst = [].
Proof.
  split; [exact ExplosionRun.burst_length |].
  split; [exact ExplosionRun.burst_sparks |].
  split; [exact ExplosionRun.ceil_of_decay |].
  pose proof ExplosionRun.aged63_length as Hlen.
  split; [| split; [| split]].
  - rewrite ExplosionRun.steps_64, ExplosionRun.odds_length, Hlen. reflexivity.
  - rewrite ExplosionRun.steps_64. apply ExplosionFacts.odds_Forall.
    eapply Forall_impl; [| exact ExplosionRun.aged63_sparks].
    intros p [Hl _]; exact Hl.
  - destruct (ExplosionRun.steps_after_64 2) as [E _].
    change (64 + 2)%nat with 66%nat in E. rewrite E. cbn [Nat.iter nat_rect].
    rewrite !ExplosionRun.odds_length, Hlen. reflexivity.
  - destruct (ExplosionRun.steps_after_64 3) as [E _].
    change (64 + 3)%nat with 67%nat in E. rewrite E.
    apply length_zero_iff_nil. cbn [Nat.iter nat_rect].
    rewrite !ExplosionRun.odds_length, Hlen. reflexivity.
Qed.

(** ** What [createParticles] makes *)

Lemma INR_palette : INR (List.length colors) = 6.
Proof. cbn. lra. Qed.

(** [colors[Math.floor(r * colors.length)]] is a colour of the palette for
    every draw [r]. *)
Lemma palette_index r :
  0 <= r < 1 ->
  exists c, Js.index colors (Js.Math_floor (r * INR (List.length colors))) = Some c
            /\ In c colors.
Proof.
  intros Hr. rewrite INR_palette. unfold Js.Math_floor.
  pose proof (Zfloor_bound (r * 6)) as [Hlo Hhi].
  set (z := Zfloor (r * 6)) in *.
  assert (Hz : (0 <= z <= 5)%Z).
  { split.
    - assert (IZR (-1) < IZR z) by (rewrite <- (Rplus_0_r (IZR (-1))); lra).
      apply lt_IZR in H. lia.
    - assert (IZR z < IZR 6) by lra. apply lt_IZR in H. lia. }
  assert (Hc : z = 0%Z \/ z = 1%Z \/ z = 2%Z \/ z = 3%Z \/ z = 4%Z \/ z = 5%Z)
    by lia.
  clearbody z.
  destruct Hc as [-> | [-> | [-> | [-> | [-> | ->]]]]]; cbn;
    eexists; (split; [reflexivity |]); cbn; tauto.
Qed.



(** ** [setMode] *)

Lemma forEach_drawing_Forall2 (Q : Particle -> Particle -> Prop)
    (callback : Particle -> Random.Rand Particle) (src : nat -> R) :
  (forall p k, Q p (fst (callback p src k))) ->
  forall ps k, Forall2 Q ps (fst (forEach_drawing callback ps src k)).
Proof.
  intros H; induction ps as [|p ps IH]; intros k; cbn.
  - constructor.
  - unfold Random.bind.
    pose proof (H p k) as Hp.
    destruct (callback p src k) as [q k1]; cbn [fst] in Hp.
    pose proof (IH k1) as Hps.
    destruct (forEach_drawing callback ps src k1) as [qs k2]; cbn [fst] in *.
    constructor; assumption.
Qed.

Lemma forEach_drawing_draws (c : nat)
    (callback : Particle -> Random.Rand Particle) (src : nat -> R) :
  (forall p k, snd (callback p src k) = (k + c)%nat) ->
  forall ps k,
    snd (forEach_drawing callback ps src k) = (k + c * List.length ps)%nat.
Proof.
  intros H; induction ps as [|p ps IH]; intros k; cbn.
  - lia.
  - unfold Random.bind.
    pose proof (H p k) as Hp.
    destruct (callback p src k) as [q k1]; cbn [snd] in Hp.
    pose proof (IH k1) as Hps.
    destruct (forEach_drawing callback ps src k1) as [qs k2]; cbn [snd] in *.
    unfold Random.ret; cbn [snd]. lia.
Qed.

Lemma randomVelocity_bound factor src p k :
  Random.unit_draws src -> 0 <= factor ->
  let q := fst (randomVelocity factor p src k) in
  same_but_velocity p q /\
  Rabs (vx q) <= factor / 2 /\ Rabs (vy q) <= factor / 2.
Proof.
  intros Hsrc Hf. cbn.
  pose proof (Hsrc k). pose proof (Hsrc (S k)).
  split; [repeat split |].
  split; apply Rabs_le; nra.
Qed.

(** X2. [setMode('calm')] and [setMode('energetic')] give every particle a
    new velocity with both components at most 0.1, respectively 0.75, in
    absolute value, leave its position, size, colour, opacity and delta
    as they were, and make two draws for each particle. *)
Theorem setMode_calm_energetic (ps : list Particle) (src : nat -> R) (k : nat) :
  Random.unit_draws src ->
  (Forall2 (fun p q => same_but_velocity p q /\
                       Rabs (vx q) <= 0.1 /\ Rabs (vy q) <= 0.1)
     ps (fst (setMode_particles "calm" ps src k)) /\
   snd (setMode_particles "calm" ps src k) = (k + 2 * List.length ps)%nat) /\
  (Forall2 (fun p q => same_but_velocity p q /\
                       Rabs (vx q) <= 0.75 /\ Rabs (vy q) <= 0.75)
     ps (fst (setMode_particles "energetic" ps src k)) /\
   snd (setMode_particles "energetic" ps src k) = (k + 2 * List.length ps)%nat).
Proof.
  intros Hsrc. unfold setMode_particles; cbn [String.eqb Ascii.eqb Bool.eqb].
  split; split.
  - apply forEach_drawing_Forall2; intros p k'.
    pose proof (randomVelocity_bound 0.2 src p k' Hsrc ltac:(lra)) as H.
    cbv zeta in H. destruct H as (H1 & H2 & H3). repeat split; try apply H1; lra.
  - apply forEach_drawing_draws; intros; cbn; lia.
  - apply forEach_drawing_Forall2; intros p k'.
    pose proof (randomVelocity_bound 1.5 src p k' Hsrc ltac:(lra)) as H.
    cbv zeta in H. destruct H as (H1 & H2 & H3). repeat split; try apply H1; lra.
  - apply forEach_drawing_draws; intros; cbn; lia.
Qed.

Lemma setMode_calm_energetic_witness :
  Random.unit_draws half_draws /\
  Forall2 (fun p q => same_but_velocity p q /\
                      Rabs (vx q) <= 0.1 /\ Rabs (vy q) <= 0.1)
    [drifting; bright] (fst (setMode_particles "calm" [drifting; bright] half_draws 0%nat)).
Proof.
  assert (H : Random.unit_draws half_draws).
  { intros k; unfold half_draws; lra. }
  split; [exact H |].
  exact (proj1 (proj1 (setMode_calm_energetic [drifting; bright] half_draws 0 H))).
Defined.

(** X3. [setMode('upward')] leaves every particle moving up or not at all
    vertically ([vy <= 0]), its vertical speed raised by less than 0.5 and
    never lowered, and changes nothing else; it makes one draw for each
    particle. *)
Theorem setMode_upward (ps : list Particle) (src : nat -> R) (k : nat) :
  Random.unit_draws src ->
  Forall2 (fun p q => same_but_velocity p q /\ vx q = vx p /\ vy q <= 0 /\
                      Rabs (vy p) <= Rabs (vy q) < Rabs (vy p) + 0.5)
    ps (fst (setMode_particles "upward" ps src k)) /\
  snd (setMode_particles "upward" ps src k) = (k + List.length ps)%nat.
Proof.
  intros Hsrc. unfold setMode_particles; cbn [String.eqb Ascii.eqb Bool.eqb].
  split.
  - apply forEach_drawing_Forall2; intros p k'. cbn.
    pose proof (Hsrc k'). pose proof (Rabs_pos (vy p)).
    unfold Js.Math_abs.
    split; [repeat split |]. split; [reflexivity |].
    rewrite (Rabs_left1 (- Rabs (vy p) - src k' * 0.5)) by lra.
    lra.
  - rewrite (forEach_drawing_draws 1); [lia |]. intros; cbn; lia.
Qed.

Lemma setMode_upward_witness :
  Random.unit_draws half_draws /\
  Forall2 (fun p q => vy q <= 0)
    [drifting; bright] (fst (setMode_particles "upward" [drifting; bright] half_draws 0%nat)).
Proof.
  assert (H : Random.unit_draws half_draws).
  { intros k; unfold half_draws; lra. }
  split; [exact H |].
  eapply Forall2_impl;
    [| exact (proj1 (setMode_upward [drifting; bright] half_draws 0 H))].
  intros p q Hpq. apply Hpq.
Defined.

(** X4. [setMode] with any mode other than ['calm'], ['energetic'] and
    ['upward'] changes nothing and makes no draw. *)
Theorem setMode_unknown (mode : string) (s : ParticleSystem) (src : nat -> R) (k : nat) :
  mode <> "calm"%string -> mode <> "energetic"%string -> mode <> "upward"%string ->
  setMode mode s src k = (s, k).
Proof.
  intros H1 H2 H3. unfold setMode, setMode_particles, Random.bind.
  apply String.eqb_neq in H1, H2, H3. rewrite H1, H2, H3.
  destruct s; reflexivity.
Qed.

Lemma setMode_unknown_witness :
  setMode "fast"
    {| window := window800; canvas := canvas800; particles := [drifting];
       particleCount := 1; mouse := pointer_absent; pauseAnimation := None |}
    half_draws 7%nat
  = ({| window := window800; canvas := canvas800; particles := [drifting];
        particleCount := 1; mouse := pointer_absent; pauseAnimation := None |},
     7%nat).
Proof.
  apply setMode_unknown; intros H; discriminate H.
Defined.

(** ** What the render pass draws *)

Lemma separation_nonneg p q : 0 <= separation p q.
Proof. apply sqrt_pos. Qed.

(** X5. Every connection line the render pass strokes has an opacity in
    [(0, 0.2]], the colour [#00f5ff] and the width 1. *)
Theorem connection_opacity_range (ps : list Particle) :
  Forall (fun t => 0 < stroke_globalAlpha (snd t) <= 0.2 /\
                   strokeStyle (snd t) = "#00f5ff"%string /\
                   lineWidth (snd t) = 1)
    (drawConnections_pairs ps).
Proof.
  apply Forall_forall; intros [[i j] s] Hin.
  apply in_drawConnections_pairs in Hin as [Hij E].
  destruct (nth_error ps i) as [pi|] eqn:Ei;
    [| unfold connection in E; rewrite Ei in E; discriminate].
  destruct (nth_error ps j) as [pj|] eqn:Ej;
    [| unfold connection in E; rewrite Ei, Ej in E; discriminate].
  rewrite (connection_eq ps i j pi pj Ei Ej) in E.
  destruct (Js.ltb (separation pi pj) 120) eqn:Hlt; [| discriminate].
  apply ltb_true in Hlt. inversion E; subst s.
  pose proof (separation_nonneg pi pj).
  cbn. repeat split; lra.
Qed.

Lemma length_flat_map_le {A B : Type} (f : A -> list B) (g : A -> nat) (l : list A) :
  (forall a, In a l -> (List.length (f a) <= g a)%nat) ->
  (List.length (flat_map f l) <= list_sum (map g l))%nat.
Proof.
  induction l as [|a l IH]; intros H; [cbn; lia |].
  change (list_sum (map g (a :: l))) with (g a + list_sum (map g l))%nat.
  cbn [flat_map]. rewrite length_app.
  pose proof (H a (or_introl eq_refl)).
  assert (List.length (flat_map f l) <= list_sum (map g l))%nat.
  { apply IH. intros b Hb; apply H; now right. }
  lia.
Qed.

Lemma list_sum_cons n l : list_sum (n :: l) = (n + list_sum l)%nat.
Proof. reflexivity. Qed.

Lemma triangle_sum m :
  forall a, (2 * list_sum (map (fun i => a + m - S i) (seq a m)) = m * (m - 1))%nat.
Proof.
  induction m as [|m IH]; intros a; [reflexivity |].
  cbn [seq map]. rewrite list_sum_cons.
  assert (E : map (fun i => (a + S m - S i)%nat) (seq (S a) m)
              = map (fun i => (S a + m - S i)%nat) (seq (S a) m)).
  { apply map_ext; intros i; lia. }
  rewrite E. specialize (IH (S a)).
  replace (a + S m - S a)%nat with m by lia.
  set (L := list_sum _) in *. clearbody L.
  destruct m as [|m']; [lia |].
  replace (S m' - 1)%nat with m' in IH by lia.
  replace (S (S m') - 1)%nat with (S m') by lia.
  nia.
Qed.

Lemma list_sum_ones (l : list nat) :
  list_sum (map (fun _ => 1%nat) l) = List.length l.
Proof. induction l as [|a l IH]; [reflexivity |]. cbn [map]. rewrite list_sum_cons, IH. reflexivity. Qed.

Lemma drawConnections_pairs_count ps :
  (2 * List.length (drawConnections_pairs ps)
   <= List.length ps * (List.length ps - 1))%nat.
Proof.
  unfold drawConnections_pairs.
  set (n := List.length ps).
  pose proof (triangle_sum n 0) as T. cbn [Nat.add] in T.
  rewrite <- T. apply Nat.mul_le_mono_l.
  apply length_flat_map_le; intros i _.
  etransitivity;
    [apply (length_flat_map_le _ (fun _ => 1%nat)) |].
  - intros j _. destruct (connection ps i j); cbn; lia.
  - rewrite list_sum_ones, length_seq. unfold n. lia.
Qed.

(** X6. One render pass of [n] particles clears the canvas first, then
    strokes at most [n (n - 1) / 2] connection lines, then fills two arcs
    for each particle. *)
Theorem render_pass_size (cv : Canvas) (ps : list Particle) :
  (exists rest, drawParticles cv ps = ClearRect (width cv) (height cv) :: rest) /\
  (2 * List.length (drawConnections ps)
   <= List.length ps * (List.length ps - 1))%nat /\
  List.length (drawParticles cv ps)
  = (1 + List.length (drawConnections ps) + 2 * List.length ps)%nat.
Proof.
  split; [eexists; reflexivity |].
  split.
  - unfold drawConnections. rewrite length_map. apply drawConnections_pairs_count.
  - unfold drawParticles. cbn [List.length]. rewrite length_app.
    assert (E : List.length (flat_map drawParticle ps) = (2 * List.length ps)%nat).
    { induction ps as [|p ps IH]; cbn [flat_map]; [reflexivity |].
      rewrite length_app, IH. cbn; lia. }
    rewrite E. lia.
Qed.

(** ** The pointer and scroll handlers *)

Lemma updateParticle_no_pointer cv p :
  vx (updateParticle cv {| mouse_x := None; mouse_y := None |} p) = vx p * 0.99 /\
  vy (updateParticle cv {| mouse_x := None; mouse_y := None |} p) = vy p * 0.99.
Proof.
  pose proof (updateParticle_velocity cv {| mouse_x := None; mouse_y := None |} p) as H.
  exact H.
Qed.

(** X7. After the pointer has left the window, a frame changes the
    velocity of every particle by friction alone: each component is
    multiplied by 0.99, wherever the pointer was before. *)
Theorem pointer_leave_stops_attraction (s : ParticleSystem) (src : nat -> R) (k : nat) :
  let left := fst (fst (handle MouseLeave s src k)) in
  let after := fst (fst (handle Frame left src k)) in
  map vx (particles after) = map (fun p => vx p * 0.99) (particles s) /\
  map vy (particles after) = map (fun p => vy p * 0.99) (particles s).
Proof.
  cbn. unfold updateParticles. rewrite !map_map.
  split; apply map_ext; intros p; apply updateParticle_no_pointer.
Qed.

(** X8. A scroll event at offset [0 <= pageYOffset <= maxScroll], on a
    page that can scroll ([0 < maxScroll]), raises the vertical velocity of
    every particle by the same amount, at most 0.001, and changes nothing
    else of the particles. *)
Theorem scroll_pushes_down
    (s : ParticleSystem) (pageYOffset scrollHeight : R) (src : nat -> R) (k : nat) :
  0 < scrollHeight - INR (innerHeight (window s)) ->
  0 <= pageYOffset <= scrollHeight - INR (innerHeight (window s)) ->
  exists push, 0 <= push <= 0.001 /\
    Forall2 (fun p q => same_but_velocity p q /\ vx q = vx p /\ vy q = vy p + push)
      (particles s)
      (particles (fst (fst (handle (Scroll pageYOffset scrollHeight) s src k)))).
Proof.
  intros Hmax Hoff.
  set (maxScroll := scrollHeight - INR (innerHeight (window s))) in *.
  exists (pageYOffset / maxScroll * 0.001). split.
  - assert (0 <= pageYOffset / maxScroll <= 1).
    { split.
      - apply Rmult_le_pos; [lra | left; now apply Rinv_0_lt_compat].
      - apply (Rmult_le_reg_r maxScroll); [exact Hmax |].
        unfold Rdiv. rewrite Rmult_assoc, Rinv_l by lra. lra. }
    lra.
  - cbn. induction (particles s) as [|p ps IH]; cbn; constructor; auto.
    repeat split.
Qed.

Lemma scroll_pushes_down_witness :
  0 < 1600 - INR (innerHeight window800) /\
  0 <= 500 <= 1600 - INR (innerHeight window800) /\
  exists push, 0 <= push <= 0.001 /\
    Forall2 (fun p q => same_but_velocity p q /\ vx q = vx p /\ vy q = vy p + push)
      [drifting]
      (particles (fst (fst (handle (Scroll 500 1600)
         {| window := window800; canvas := canvas800; particles := [drifting];
            particleCount := 1; mouse := pointer_absent; pauseAnimation := None |}
         zero_draws 0%nat)))).
Proof.
  assert (E : INR (innerHeight window800) = 600).
  { unfold window800; cbn [innerHeight]. rewrite INR_IZR_INZ. reflexivity. }
  assert (H1 : 0 < 1600 - INR (innerHeight window800)) by (rewrite E; lra).
  assert (H2 : 0 <= 500 <= 1600 - INR (innerHeight window800)) by (rewrite E; lra).
  split; [exact H1 |]. split; [exact H2 |].
  exact (scroll_pushes_down
           {| window := window800; canvas := canvas800; particles := [drifting];
              particleCount := 1; mouse := pointer_absent; pauseAnimation := None |}
           500 1600 zero_draws 0 H1 H2).
Defined.

(** ** More on the explosion *)

Module ExplosionLaws.
Import Explosion ExplosionFacts.

Lemma speed_of_spark x0 y0 src i k :
  let p := spark_of_draws x0 y0 src i k in
  vx p * vx p + vy p * vy p = (src k * 5 + 2) * (src k * 5 + 2).
Proof.
  cbv zeta. unfold spark_of_draws; cbn [vx vy]. unfold Js.Math_cos, Js.Math_sin.
  set (a := Js.Math_PI * 2 * INR i / INR particleCount).
  pose proof (sin2_cos2 a) as H. unfold Rsqr in H.
  set (v := src k * 5 + 2).
  replace (cos a * v * (cos a * v) + sin a * v * (sin a * v))
    with ((sin a * sin a + cos a * cos a) * (v * v)) by ring.
  rewrite H. ring.
Qed.

Lemma survives_iff p : Js.leb (life (age p)) 0 = false <-> survives p.
Proof. unfold survives; cbn [life age]. rewrite leb_false. tauto. Qed.

Lemma expires_iff p : Js.leb (life (age p)) 0 = true <-> expires p.
Proof. unfold expires; cbn [life age]. rewrite leb_true. tauto. Qed.

Lemma forEach_loop_sweep m :
  forall rest, (List.length rest <= m)%nat ->
  forall b n, (List.length rest <= n)%nat ->
    Js.forEach_loop callback n (List.length b) (b ++ rest) = b ++ sweep rest.
Proof.
  induction m as [|m IH]; intros rest Hm b n Hn.
  - destruct rest; [| cbn in Hm; lia].
    apply forEach_loop_beyond. rewrite app_nil_r. apply le_n.
  - destruct rest as [|p rest].
    + apply forEach_loop_beyond. rewrite app_nil_r. apply le_n.
    + destruct n as [|n]; [cbn in Hn; lia |].
      cbn [Js.forEach_loop]. rewrite nth_error_middle.
      cbn [sweep]. destruct (Js.leb (life (age p)) 0) eqn:E.
      * apply expires_iff in E. rewrite callback_expires by exact E.
        destruct rest as [|q rest].
        -- apply forEach_loop_beyond. rewrite app_nil_r. lia.
        -- specialize (IH rest ltac:(cbn in Hm; lia) (b ++ [q]) n
                          ltac:(cbn in Hn; lia)).
           rewrite length_app, Nat.add_1_r, <- !app_assoc in IH.
           exact IH.
      * apply survives_iff in E. rewrite callback_survives by exact E.
        specialize (IH rest ltac:(cbn in Hm; lia) (b ++ [age p]) n
                       ltac:(cbn in Hn; lia)).
        rewrite length_app, Nat.add_1_r, <- !app_assoc in IH.
        exact IH.
Qed.

Lemma forEach_sweep a : Js.forEach callback a = sweep a.
Proof.
  exact (forEach_loop_sweep (List.length a) a (le_n _) [] (List.length a) (le_n _)).
Qed.

(** Induction along the cases of [sweep]. *)
Lemma sweep_cases (P : list Spark -> list Spark -> Prop) :
  P [] [] ->
  (forall p, expires p -> P [p] []) ->
  (forall p q r, expires p -> P r (sweep r) -> P (p :: q :: r) (q :: sweep r)) ->
  (forall p r, survives p -> P r (sweep r) -> P (p :: r) (age p :: sweep r)) ->
  forall a, P a (sweep a).
Proof.
  intros H0 H1 H2 H3.
  assert (H : forall m a, (List.length a <= m)%nat -> P a (sweep a)).
  { induction m as [|m IH]; intros a Hm.
    - destruct a; [exact H0 | cbn in Hm; lia].
    - destruct a as [|p rest]; [exact H0 |].
      cbn [sweep]. destruct (Js.leb (life (age p)) 0) eqn:E.
      + apply expires_iff in E. destruct rest as [|q rest].
        * now apply H1.
        * apply H2; [exact E |]. apply IH. cbn in Hm; lia.
      + apply survives_iff in E. apply H3; [exact E |].
        apply IH. cbn in Hm; lia. }
  intros a. apply (H (List.length a)). apply le_n.
Qed.

Lemma sweep_length a : (List.length (sweep a) <= List.length a)%nat.
Proof.
  apply (sweep_cases (fun a b => (List.length b <= List.length a)%nat));
    intros; cbn [List.length]; lia.
Qed.

Lemma sweep_lives_within m a : lives_within m a -> lives_within m (sweep a).
Proof.
  unfold lives_within.
  apply (sweep_cases (fun a b =>
    Forall (fun p => 0 < decay p /\ life p <= INR m * decay p) a ->
    Forall (fun p => 0 < decay p /\ life p <= INR m * decay p) b)).
  - auto.
  - intros; constructor.
  - intros p q r _ IH H. inversion H as [|? ? _ H']; subst.
    inversion H' as [|? ? Hq Hr]; subst. constructor; auto.
  - intros p r _ IH H. inversion H as [|? ? Hp Hr]; subst.
    constructor; [| auto]. cbn [life decay age]. lra.
Qed.

(** A step shortens the collection or uses up one decay of every spark. *)
Lemma sweep_progress m a :
  lives_within (S m) a ->
  (List.length (sweep a) < List.length a)%nat \/ lives_within m (sweep a).
Proof.
  unfold lives_within.
  apply (sweep_cases (fun a b =>
    Forall (fun p => 0 < decay p /\ life p <= INR (S m) * decay p) a ->
    (List.length b < List.length a)%nat \/
    Forall (fun p => 0 < decay p /\ life p <= INR m * decay p) b)).
  - right; constructor.
  - intros; left; cbn; lia.
  - intros p q r _ _ _. left. pose proof (sweep_length r). cbn [List.length]. lia.
  - intros p r _ IH H. inversion H as [|? ? Hp Hr]; subst.
    destruct (IH Hr) as [Hlt | Hall].
    + left. cbn [List.length]. lia.
    + right. constructor; [| exact Hall].
      rewrite S_INR in Hp. cbn [life decay age]. lra.
Qed.

Lemma sweep_no_life a :
  lives_within 0 a -> a <> [] ->
  (List.length (sweep a) < List.length a)%nat.
Proof.
  intros H Ha. destruct a as [|p rest]; [congruence |].
  inversion H as [|? ? Hp _]; subst. cbn [INR] in Hp.
  cbn [sweep]. rewrite (proj2 (expires_iff p)) by (unfold expires; lra).
  destruct rest as [|q rest]; cbn [List.length]; [lia |].
  pose proof (sweep_length rest). lia.
Qed.

Lemma steps_sweep n a : steps (S n) a = steps n (sweep a).
Proof. now rewrite steps_succ, forEach_sweep. Qed.

Lemma steps_end n :
  forall m a, lives_within m a -> (m + List.length a <= n)%nat -> steps n a = [].
Proof.
  induction n as [|n IH]; intros m a H Hn.
  - destruct a; [reflexivity | cbn in Hn; lia].
  - rewrite steps_sweep.
    destruct a as [|p rest]; [cbn; apply steps_nil |].
    destruct m as [|m].
    + pose proof (sweep_no_life (p :: rest) H ltac:(discriminate)).
      apply (IH 0%nat); [now apply sweep_lives_within | lia].
    + destruct (sweep_progress m (p :: rest) H) as [Hlt | Hall].
      * apply (IH (S m)); [now apply sweep_lives_within | lia].
      * pose proof (sweep_length (p :: rest)).
        apply (IH m); [exact Hall | lia].
Qed.

Lemma sweep_keeps a :
  forall p, In p a -> In p (sweep a) \/ In (age p) (sweep a) \/ expires p.
Proof.
  apply (sweep_cases (fun a b =>
    forall p, In p a -> In p b \/ In (age p) b \/ expires p)).
  - intros p [].
  - intros p Hp q [<- | []]. auto.
  - intros p q r Hp IH e [<- | [<- | He]].
    + auto.
    + left; now left.
    + destruct (IH e He) as [H | [H | H]]; [left | right; left | auto]; now right.
  - intros p r Hp IH e [<- | He].
    + right; left; now left.
    + destruct (IH e He) as [H | [H | H]]; [left | right; left | auto]; now right.
Qed.

End ExplosionLaws.

(** X9. A click makes exactly 15 sparks from 60 draws, all at the click
    point, each with life 1 and opacity 1, a decay in [[0.01, 0.03)], a size
    in [[2, 6)], a colour of the palette, and a speed between 2 and 7
    ([4 <= vx^2 + vy^2 < 49]). *)
Theorem explosion_created (x0 y0 : R) (src : nat -> R) (k : nat) :
  Random.unit_draws src ->
  List.length (fst (Explosion.create x0 y0 src k)) = 15%nat /\
  snd (Explosion.create x0 y0 src k) = (k + 60)%nat /\
  Forall (fun p =>
            Explosion.x p = x0 /\ Explosion.y p = y0 /\
            Explosion.life p = 1 /\ Explosion.opacity p = 1 /\
            0.01 <= Explosion.decay p < 0.03 /\
            2 <= Explosion.size p < 6 /\
            (exists c, Explosion.color p = Some c /\ In c colors) /\
            4 <= Explosion.vx p * Explosion.vx p + Explosion.vy p * Explosion.vy p < 49)
    (fst (Explosion.create x0 y0 src k)).
Proof.
  intros Hsrc. rewrite ExplosionRun.create_run. cbn [fst snd].
  split; [now rewrite length_map, length_seq |].
  split; [reflexivity |].
  apply Forall_forall; intros p Hp.
  apply in_map_iff in Hp as (t & <- & _).
  rewrite ExplosionLaws.speed_of_spark.
  set (j := (k + 4 * t)%nat).
  pose proof (Hsrc j) as H0. pose proof (Hsrc (1 + j)%nat) as H1.
  pose proof (Hsrc (2 + j)%nat) as H2. pose proof (Hsrc (3 + j)%nat) as H3.
  unfold Explosion.spark_of_draws;
    cbn [Explosion.x Explosion.y Explosion.life Explosion.opacity
         Explosion.decay Explosion.size Explosion.color].
  repeat split; try lra; try nra.
  apply palette_index; exact H2.
Qed.

Lemma explosion_created_witness :
  Random.unit_draws half_draws /\
  List.length (fst (Explosion.create 400 300 half_draws 0%nat)) = 15%nat.
Proof.
  assert (H : Random.unit_draws half_draws).
  { intros k; unfold half_draws; lra. }
  split; [exact H |].
  exact (proj1 (explosion_created 400 300 half_draws 0 H)).
Defined.

(** X10. One animation step of the explosion is [sweep]: going through
    the collection from the left, a spark whose life stays positive is
    aged and kept; a spark whose life is used up is removed, and the spark
    behind it is kept without being aged in this step. The step asks for
    another frame exactly when sparks are left. *)
Theorem explosion_step_is_sweep (a : list Explosion.Spark) :
  fst (Explosion.animateExplosion a) = sweep a /\
  requestedFrame (snd (Explosion.animateExplosion a))
  = negb (Nat.eqb (List.length (sweep a)) 0).
Proof.
  unfold Explosion.animateExplosion. cbn [fst snd requestedFrame].
  rewrite ExplosionLaws.forEach_sweep. split; [reflexivity |].
  destruct (sweep a); reflexivity.
Qed.

(** X11. A step of the explosion never adds a spark, and every spark it
    drops had used up its life: each spark of the collection is still
    there afterwards, aged or as it was, or its life minus its decay is at
    most 0. *)
Theorem explosion_step_drops_only_expired (a : list Explosion.Spark) :
  (List.length (fst (Explosion.animateExplosion a)) <= List.length a)%nat /\
  (forall p, In p a ->
     In p (fst (Explosion.animateExplosion a)) \/
     In (Explosion.age p) (fst (Explosion.animateExplosion a)) \/
     Explosion.life p - Explosion.decay p <= 0).
Proof.
  unfold Explosion.animateExplosion. cbn [fst].
  rewrite ExplosionLaws.forEach_sweep. split.
  - apply ExplosionLaws.sweep_length.
  - apply ExplosionLaws.sweep_keeps.
Qed.

Lemma explosion_created_sparks_within x0 y0 src k :
  Random.unit_draws src ->
  List.length (fst (Explosion.create x0 y0 src k)) = 15%nat /\
  lives_within 100 (fst (Explosion.create x0 y0 src k)).
Proof.
  intros Hsrc. rewrite ExplosionRun.create_run. cbn [fst].
  split; [now rewrite length_map, length_seq |].
  apply Forall_forall; intros p Hp.
  apply in_map_iff in Hp as (t & <- & _).
  pose proof (Hsrc (3 + (k + 4 * t))%nat) as H3.
  assert (E : INR 100 = 100) by (rewrite INR_IZR_INZ; reflexivity).
  rewrite E. unfold Explosion.spark_of_draws;
    cbn [Explosion.life Explosion.decay].
  lra.
Qed.

(** X12. Every explosion ends: whatever the click point and the draws in
    [[0, 1)], the collection is empty after 115 animation steps, and after
    any larger number. *)
Theorem explosion_ends (x0 y0 : R) (src : nat -> R) (k n : nat) :
  Random.unit_draws src ->
  (115 <= n)%nat ->
  Explosion.steps n (fst (Explosion.create x0 y0 src k)) = [].
Proof.
  intros Hsrc Hn.
  destruct (explosion_created_sparks_within x0 y0 src k Hsrc) as [Hlen Hlives].
  apply (ExplosionLaws.steps_end n 100); [exact Hlives | lia].
Qed.

Lemma explosion_ends_witness :
  Random.unit_draws half_draws /\ (115 <= 115)%nat /\
  Explosion.steps 115 (fst (Explosion.create 400 300 half_draws 0%nat)) = [].
Proof.
  assert (H : Random.unit_draws half_draws).
  { intros k; unfold half_draws; lra. }
  split; [exact H |]. split; [apply le_n |].
  exact (explosion_ends 400 300 half_draws 0 115 H (le_n 115)).
Defined.

(** X13. As long as no life is used up nothing is removed: when [n] decays
    are less than the life of every spark, [n] animation steps keep every
    spark, in order, each aged [n] times, its life lowered by [n] decays. *)
Theorem explosion_keeps_living_sparks (n : nat) (a : list Explosion.Spark) :
  Forall (fun p => 0 <= Explosion.decay p /\
                   INR n * Explosion.decay p < Explosion.life p) a ->
  Explosion.steps n a = map (Nat.iter n Explosion.age) a /\
  Forall2 (fun p q => Explosion.life q = Explosion.life p - INR n * Explosion.decay p /\
                      Explosion.decay q = Explosion.decay p)
    a (Explosion.steps n a).
Proof.
  intros H. rewrite (ExplosionFacts.steps_survive n a H). split; [reflexivity |].
  clear H. induction a as [|p a IH]; cbn [map]; constructor; [| exact IH].
  apply ExplosionFacts.life_iter_age.
Qed.

Lemma explosion_keeps_living_sparks_witness :
  Forall (fun p => 0 <= Explosion.decay p /\
                   INR 63 * Explosion.decay p < Explosion.life p) Explosion.burst /\
  Explosion.steps 63 Explosion.burst = map (Nat.iter 63 Explosion.age) Explosion.burst.
Proof.
  assert (H : Forall (fun p => 0 <= Explosion.decay p /\
                   INR 63 * Explosion.decay p < Explosion.life p) Explosion.burst).
  { eapply Forall_impl; [| exact ExplosionRun.burst_sparks].
    intros p [Hl Hd]. rewrite Hl, Hd, ExplosionRun.INR_63. lra. }
  split; [exact H |].
  exact (proj1 (explosion_keeps_living_sparks 63 Explosion.burst H)).
Defined.

(** ** The floating orbs *)

Module OrbFacts.
Import Orbs.

Lemma geb_true a b : Js.geb a b = true <-> b <= a.
Proof. apply leb_true. Qed.

Lemma geb_false a b : Js.geb a b = false <-> a < b.
Proof. apply leb_false. Qed.

(** One axis of [animateOrb]. *)
Definition bounce (limit pos vel sz : R) : R * R :=
  let pos1 := pos + vel in
  if Js.leb pos1 0 || Js.geb pos1 (limit - sz) then
    (vel * -1, Js.Math_max 0 (Js.Math_min (limit - sz) pos1))
  else (vel, pos1).

Lemma animateOrb_bounce w o :
  animateOrb w o =
  {| x := snd (bounce (INR (innerWidth w)) (x o) (vx o) (size o));
     y := snd (bounce (INR (innerHeight w)) (y o) (vy o) (size o));
     vx := fst (bounce (INR (innerWidth w)) (x o) (vx o) (size o));
     vy := fst (bounce (INR (innerHeight w)) (y o) (vy o) (size o));
     size := size o |}.
Proof.
  unfold animateOrb, bounce; cbv zeta.
  destruct (_ || _); destruct (_ || _); reflexivity.
Qed.

Lemma bounce_inside limit pos vel sz :
  0 <= snd (bounce limit pos vel sz) <= Rmax 0 (limit - sz).
Proof.
  unfold bounce; cbv zeta.
  destruct (Js.leb (pos + vel) 0) eqn:E1;
    destruct (Js.geb (pos + vel) (limit - sz)) eqn:E2; cbn [orb snd];
    try apply leb_true in E1; try apply leb_false in E1;
    try apply geb_true in E2; try apply geb_false in E2;
    unfold Js.Math_max, Js.Math_min, Rmax, Rmin;
    repeat match goal with
      | |- context [Rle_dec ?a ?b] => destruct (Rle_dec a b)
      end; lra.
Qed.

Lemma bounce_speed limit pos vel sz :
  Rabs (fst (bounce limit pos vel sz)) = Rabs vel.
Proof.
  unfold bounce; cbv zeta. destruct (_ || _); cbn [fst]; [| reflexivity].
  replace (vel * -1) with (- vel) by lra. apply Rabs_Ropp.
Qed.

Lemma animateOrb_size w o : size (animateOrb w o) = size o.
Proof. rewrite animateOrb_bounce; reflexivity. Qed.

Lemma createOrbs_loop_run pw w n :
  forall made src k,
    List.length (fst (createOrbs_loop pw w n made src k))
    = (List.length made + n)%nat /\
    snd (createOrbs_loop pw w n made src k) = (k + 9 * n)%nat /\
    (forall Q : OrbElement * Orb -> Prop,
       Forall Q made -> (forall j, Q (fst (newOrb pw w src j))) ->
       Forall Q (fst (createOrbs_loop pw w n made src k))).
Proof.
  induction n as [|n IH]; intros made src k.
  - cbn. repeat split; auto; lia.
  - cbn [createOrbs_loop]. unfold Random.bind.
    destruct (newOrb pw w src k) as [o k1] eqn:E.
    assert (Hk : k1 = (9 + k)%nat).
    { unfold newOrb, Random.bind, Random.Math_random, Random.ret in E.
      now inversion E. }
    destruct (IH (made ++ [o]) src k1) as (H1 & H2 & H3).
    rewrite H1, H2, length_app. cbn [List.length].
    repeat split; try lia.
    intros Q Hm Hnew. apply H3; [| exact Hnew].
    apply Forall_app; split; [exact Hm |].
    constructor; [| constructor].
    specialize (Hnew k). now rewrite E in Hnew.
Qed.

End OrbFacts.

(** X14. After every step of [FloatingOrbs.animate], for any orb and
    window, the orb's position is between 0 and the window size minus the
    orb's size on each axis (between 0 and 0 when the window is smaller
    than the orb): the bounce keeps the orb on the screen. *)
Theorem orb_stays_on_screen (w : Window) (o : Orbs.Orb) :
  0 <= Orbs.x (Orbs.animateOrb w o)
    <= Rmax 0 (INR (innerWidth w) - Orbs.size o) /\
  0 <= Orbs.y (Orbs.animateOrb w o)
    <= Rmax 0 (INR (innerHeight w) - Orbs.size o).
Proof.
  rewrite OrbFacts.animateOrb_bounce. cbn [Orbs.x Orbs.y].
  split; apply OrbFacts.bounce_inside.
Qed.

(** X15. The orbs never speed up or slow down: after any number of steps
    each velocity component has the absolute value it started with, and
    the size is unchanged; a step only ever flips a sign. *)
Theorem orb_speed_is_kept (w : Window) (n : nat) (o : Orbs.Orb) :
  Rabs (Orbs.vx (Nat.iter n (Orbs.animateOrb w) o)) = Rabs (Orbs.vx o) /\
  Rabs (Orbs.vy (Nat.iter n (Orbs.animateOrb w) o)) = Rabs (Orbs.vy o) /\
  Orbs.size (Nat.iter n (Orbs.animateOrb w) o) = Orbs.size o.
Proof.
  induction n as [|n (IHx & IHy & IHs)]; [repeat split |].
  change (Nat.iter (S n) (Orbs.animateOrb w) o)
    with (Orbs.animateOrb w (Nat.iter n (Orbs.animateOrb w) o)).
  rewrite OrbFacts.animateOrb_bounce. cbn [Orbs.vx Orbs.vy Orbs.size].
  rewrite !OrbFacts.bounce_speed. auto.
Qed.

(** X16. [createOrbs] does nothing without the container: no element, no
    orb, no draw and no animation. With it, it appends 3 elements on a
    window narrower than 768 px and 6 otherwise, makes as many orbs from 9
    draws each, and starts the animation; after its first step every orb
    is on the screen and has velocity components in [[-0.25, 0.25]]. *)
Theorem createOrbs_outcome
    (parseIntWidth : R -> R) (w : Window) (src : nat -> R) (k : nat) :
  Random.unit_draws src ->
  Orbs.createOrbs parseIntWidth false w src k = (([], [], false), k) /\
  (let '(elements, orbs, started, k') := Orbs.createOrbs parseIntWidth true w src k in
   List.length elements = Orbs.orbCount w /\
   List.length orbs = Orbs.orbCount w /\
   started = true /\
   k' = (k + 9 * Orbs.orbCount w)%nat /\
   Forall (fun o => Rabs (Orbs.vx o) <= 0.25 /\ Rabs (Orbs.vy o) <= 0.25 /\
                    0 <= Orbs.x o <= Rmax 0 (INR (innerWidth w) - Orbs.size o) /\
                    0 <= Orbs.y o <= Rmax 0 (INR (innerHeight w) - Orbs.size o))
     orbs) /\
  (Orbs.orbCount w = 3%nat \/ Orbs.orbCount w = 6%nat).
Proof.
  intros Hsrc. split; [reflexivity |]. split.
  - unfold Orbs.createOrbs, Random.bind.
    destruct (OrbFacts.createOrbs_loop_run parseIntWidth w (Orbs.orbCount w) [] src k)
      as (H1 & H2 & H3).
    destruct (Orbs.createOrbs_loop parseIntWidth w (Orbs.orbCount w) [] src k)
      as [made k1]; cbn [fst snd] in *.
    unfold Orbs.animate, Random.ret.
    rewrite !length_map, H1. repeat split; try reflexivity; try exact H2.
    specialize (H3 (fun eo => Rabs (Orbs.vx (snd eo)) <= 0.25 /\
                              Rabs (Orbs.vy (snd eo)) <= 0.25)
                   (Forall_nil _)).
    assert (Hv : Forall (fun eo => Rabs (Orbs.vx (snd eo)) <= 0.25 /\
                                   Rabs (Orbs.vy (snd eo)) <= 0.25) made).
    { apply H3. intros j. cbn.
      pose proof (Hsrc (S (S (S (S (S (S (S j)))))))).
      pose proof (Hsrc (S (S (S (S (S (S (S (S j))))))))).
      split; apply Rabs_le; lra. }
    apply Forall_forall; intros o Ho.
    apply in_map_iff in Ho as (o0 & <- & Ho0).
    apply in_map_iff in Ho0 as (eo & <- & Heo).
    rewrite Forall_forall in Hv. destruct (Hv eo Heo) as [Hx Hy].
    rewrite OrbFacts.animateOrb_bounce.
    cbn [Orbs.vx Orbs.vy Orbs.x Orbs.y Orbs.size].
    rewrite !OrbFacts.bounce_speed.
    repeat split; auto; apply OrbFacts.bounce_inside.
  - unfold Orbs.orbCount. destruct (_ <? _)%nat; auto.
Qed.

Lemma createOrbs_outcome_witness :
  Random.unit_draws half_draws /\
  Orbs.createOrbs (fun v => v) false window800 half_draws 0%nat
  = (([], [], false), 0%nat).
Proof.
  assert (H : Random.unit_draws half_draws).
  { intros k; unfold half_draws; lra. }
  split; [exact H |].
  exact (proj1 (createOrbs_outcome (fun v => v) window800 half_draws 0 H)).
Defined.

(** ** Smooth scrolling *)

Module NavigationFacts.
Import Navigation.

Lemma cube_monotone a b : a <= b -> a * a * a <= b * b * b.
Proof.
  intros H.
  assert (E : b * b * b - a * a * a = (b - a) * (a * a + a * b + b * b)) by ring.
  assert (0 <= a * a + a * b + b * b).
  { pose proof (Rle_0_sqr (a + b)). pose proof (Rle_0_sqr a).
    pose proof (Rle_0_sqr b). unfold Rsqr in *. lra. }
  assert (0 <= (b - a) * (a * a + a * b + b * b))
    by (apply Rmult_le_pos; lra).
  lra.
Qed.

(** The curve of [easeInOutCubic] on the normalized time [u = t / (d / 2)]:
    the position is [c / 2 * curve u + b]. *)
Definition curve (u : R) : R :=
  if Js.ltb u 1 then u * u * u else (u - 2) * (u - 2) * (u - 2) + 2.

Lemma ease_curve t b c d :
  easeInOutCubic t b c d = c / 2 * curve (t / (d / 2)) + b.
Proof.
  unfold easeInOutCubic, curve; cbv zeta.
  destruct (Js.ltb _ 1); ring.
Qed.

Lemma curve_monotone u v : u <= v -> curve u <= curve v.
Proof.
  intros H. unfold curve.
  destruct (Js.ltb u 1) eqn:Eu; destruct (Js.ltb v 1) eqn:Ev;
    try apply ltb_true in Eu; try apply ltb_false in Eu;
    try apply ltb_true in Ev; try apply ltb_false in Ev.
  - now apply cube_monotone.
  - pose proof (cube_monotone u 1 ltac:(lra)).
    pose proof (cube_monotone (-1) (v - 2) ltac:(lra)). lra.
  - lra.
  - pose proof (cube_monotone (u - 2) (v - 2) ltac:(lra)). lra.
Qed.

Lemma curve_0 : curve 0 = 0.
Proof. unfold curve. rewrite (proj2 (ltb_true 0 1)) by lra. ring. Qed.

Lemma curve_1 : curve 1 = 1.
Proof. unfold curve. rewrite (proj2 (ltb_false 1 1)) by lra. ring. Qed.

Lemma curve_2 : curve 2 = 2.
Proof. unfold curve. rewrite (proj2 (ltb_false 2 1)) by lra. ring. Qed.


Lemma normalized t d : 0 < d -> t / (d / 2) = 2 * t / d.
Proof. intros H. field. lra. Qed.

Lemma normalized_monotone t1 t2 d :
  0 < d -> t1 <= t2 -> t1 / (d / 2) <= t2 / (d / 2).
Proof.
  intros Hd H. unfold Rdiv at 1 3.
  apply Rmult_le_compat_r; [| exact H].
  left. apply Rinv_0_lt_compat. lra.
Qed.

Lemma ease_toward t1 t2 b c d :
  0 < d -> t1 <= t2 ->
  0 <= c * (easeInOutCubic t2 b c d - easeInOutCubic t1 b c d).
Proof.
  intros Hd H. rewrite !ease_curve.
  pose proof (curve_monotone _ _ (normalized_monotone t1 t2 d Hd H)) as Hm.
  set (g1 := curve (t1 / (d / 2))) in *. set (g2 := curve (t2 / (d / 2))) in *.
  replace (c * (c / 2 * g2 + b - (c / 2 * g1 + b)))
    with (c * c * ((g2 - g1) / 2)) by field.
  apply Rmult_le_pos; [| lra].
  pose proof (Rle_0_sqr c) as Hc; unfold Rsqr in Hc; exact Hc.
Qed.

Lemma ease_start b c d : 0 < d -> easeInOutCubic 0 b c d = b.
Proof.
  intros Hd. rewrite ease_curve.
  replace (0 / (d / 2)) with 0 by (field; lra).
  rewrite curve_0. ring.
Qed.

Lemma ease_end b c d : 0 < d -> easeInOutCubic d b c d = b + c.
Proof.
  intros Hd. rewrite ease_curve.
  replace (d / (d / 2)) with 2 by (field; lra).
  rewrite curve_2. field.
Qed.

(** After the first frame, at time [t0]: the positions for the frames that
    come before the duration is over, then the one for the first frame at
    or after it, and nothing for the frames behind. *)
Lemma scrollFrames_started s c t0 before tN after :
  Forall (fun t => t - t0 < duration) before ->
  duration <= tN - t0 ->
  scrollFrames s c (Some t0) (before ++ tN :: after)
  = map (fun t => easeInOutCubic (t - t0) s c duration) before
    ++ [easeInOutCubic (tN - t0) s c duration].
Proof.
  intros Hb HN. induction before as [|t before IH]; cbn [app map scrollFrames].
  - unfold animation; cbv zeta.
    rewrite (proj2 (ltb_false _ _) HN). reflexivity.
  - inversion Hb as [|? ? Ht Hb']; subst.
    unfold animation; cbv zeta.
    rewrite (proj2 (ltb_true _ _) Ht). f_equal. now apply IH.
Qed.

End NavigationFacts.

(** X17. [easeInOutCubic] starts at [b], is at [b + c / 2] at half the
    duration and ends exactly at [b + c]. *)
Theorem ease_endpoints (b c d : R) :
  0 < d ->
  Navigation.easeInOutCubic 0 b c d = b /\
  Navigation.easeInOutCubic (d / 2) b c d = b + c / 2 /\
  Navigation.easeInOutCubic d b c d = b + c.
Proof.
  intros Hd. split; [now apply NavigationFacts.ease_start |].
  split; [| now apply NavigationFacts.ease_end].
  rewrite NavigationFacts.ease_curve.
  replace (d / 2 / (d / 2)) with 1 by (field; lra).
  rewrite NavigationFacts.curve_1. field.
Qed.

Lemma ease_endpoints_witness :
  0 < 1000 /\ Navigation.easeInOutCubic 1000 250 500 1000 = 250 + 500.
Proof.
  assert (H : 0 < 1000) by lra.
  split; [exact H |].
  exact (proj2 (proj2 (ease_endpoints 250 500 1000 H))).
Defined.



(** X19. [easeInOutCubic] never moves back: for any two times [t1 <= t2]
    the step from the position at [t1] to the position at [t2] has the sign
    of [c], or is 0. *)
Theorem ease_monotone (t1 t2 b c d : R) :
  0 < d -> t1 <= t2 ->
  0 <= c * (Navigation.easeInOutCubic t2 b c d - Navigation.easeInOutCubic t1 b c d).
Proof. apply NavigationFacts.ease_toward. Qed.

Lemma ease_monotone_witness :
  0 < 1000 /\ 300 <= 700 /\
  0 <= 500 * (Navigation.easeInOutCubic 700 250 500 1000
              - Navigation.easeInOutCubic 300 250 500 1000).
Proof.
  assert (H1 : 0 < 1000) by lra. assert (H2 : 300 <= 700) by lra.
  split; [exact H1 |]. split; [exact H2 |].
  exact (ease_monotone 300 700 250 500 1000 H1 H2).
Defined.

(** X20. [smoothScrollTo]: the first frame scrolls to where the page is;
    the frames before 1000 ms have passed scroll between the start and the
    target; the first frame at or after 1000 ms scrolls to the target or
    past it and is the last one, whatever frames the host would run
    later. *)
Theorem smooth_scroll_frames (top pageYOffset t0 tN : R) (before after : list R) :
  Forall (fun t => 0 <= t - t0 < 1000) before ->
  1000 <= tN - t0 ->
  let start := pageYOffset in
  let target := top + pageYOffset - 80 in
  let scrolled := Navigation.smoothScrollTo top pageYOffset
                    (t0 :: before ++ tN :: after) in
  List.length scrolled = (List.length before + 2)%nat /\
  hd_error scrolled = Some start /\
  Forall (fun p => 0 <= (target - start) * (p - start) /\
                   0 <= (target - start) * (target - p))
    (removelast scrolled) /\
  0 <= (target - start) * (last scrolled start - target).
Proof.
  intros Hb HN. cbv zeta. unfold Navigation.smoothScrollTo; cbv zeta.
  set (c := top + pageYOffset - 80 - pageYOffset).
  cbn [Navigation.scrollFrames]. unfold Navigation.animation; cbv zeta.
  replace (t0 - t0) with 0 by ring.
  assert (Hd : 0 < Navigation.duration) by (unfold Navigation.duration; lra).
  rewrite (proj2 (ltb_true 0 Navigation.duration) Hd).
  rewrite NavigationFacts.ease_start by exact Hd.
  rewrite (NavigationFacts.scrollFrames_started pageYOffset c t0 before tN after);
    [| eapply Forall_impl; [| exact Hb]; unfold Navigation.duration; intros; cbv beta in *; lra
     | unfold Navigation.duration; lra ].
  set (f := fun t => Navigation.easeInOutCubic (t - t0) pageYOffset c Navigation.duration).
  change (Navigation.easeInOutCubic (tN - t0) pageYOffset c Navigation.duration)
    with (f tN).
  split.
  { cbn [List.length]. rewrite length_app, length_map. cbn; lia. }
  split; [reflexivity |].
  split.
  - change (pageYOffset :: map f before ++ [f tN])
      with ((pageYOffset :: map f before) ++ [f tN]).
    rewrite removelast_last. constructor.
    + split; [replace (pageYOffset - pageYOffset) with 0 by ring; lra |].
      pose proof (Rle_0_sqr c) as Hc. unfold Rsqr, c in Hc. exact Hc.
    + apply Forall_forall; intros p Hp.
      apply in_map_iff in Hp as (t & <- & Ht).
      rewrite Forall_forall in Hb. specialize (Hb t Ht). unfold f.
      pose proof (NavigationFacts.ease_toward 0 (t - t0) pageYOffset c
                    Navigation.duration Hd ltac:(lra)) as H1.
      pose proof (NavigationFacts.ease_toward (t - t0) Navigation.duration
                    pageYOffset c Navigation.duration Hd
                    ltac:(unfold Navigation.duration; lra)) as H2.
      rewrite NavigationFacts.ease_start in H1 by exact Hd.
      rewrite NavigationFacts.ease_end in H2 by exact Hd.
      fold c. split; [exact H1 |].
      replace (top + pageYOffset - 80) with (pageYOffset + c) by (unfold c; ring).
      exact H2.
  - change (pageYOffset :: map f before ++ [f tN])
      with ((pageYOffset :: map f before) ++ [f tN]).
    rewrite last_last. unfold f.
    pose proof (NavigationFacts.ease_toward Navigation.duration (tN - t0)
                  pageYOffset c Navigation.duration Hd
                  ltac:(unfold Navigation.duration; lra)) as H.
    rewrite NavigationFacts.ease_end in H by exact Hd.
    fold c. replace (top + pageYOffset - 80) with (pageYOffset + c) by (unfold c; ring).
    exact H.
Qed.

Lemma smooth_scroll_frames_witness :
  Forall (fun t => 0 <= t - 0 < 1000) [500] /\
  1000 <= 1016 - 0 /\
  List.length (Navigation.smoothScrollTo 580 0 (0 :: [500] ++ 1016 :: [1032]))
  = 3%nat.
Proof.
  assert (H1 : Forall (fun t => 0 <= t - 0 < 1000) [500]).
  { constructor; [lra | constructor]. }
  assert (H2 : 1000 <= 1016 - 0) by lra.
  split; [exact H1 |]. split; [exact H2 |].
  exact (proj1 (smooth_scroll_frames 580 0 0 1016 [500] [1032] H1 H2)).
Defined.

(** X21. [getCurrentSection] returns the first section, in document
    order, that contains the position [pageYOffset + 100], and [null]
    exactly when no section contains it. *)
Theorem current_section_is_first (pageYOffset : R) (sections : list Navigation.Section) :
  match Navigation.getCurrentSection pageYOffset sections with
  | Some s =>
      exists before after,
        sections = before ++ s :: after /\
        Navigation.contains (pageYOffset + 100) s /\
        Forall (fun s' => ~ Navigation.contains (pageYOffset + 100) s') before
  | None =>
      Forall (fun s' => ~ Navigation.contains (pageYOffset + 100) s') sections
  end.
Proof.
  unfold Navigation.getCurrentSection; cbv zeta.
  set (pos := pageYOffset + 100).
  induction sections as [|s rest IH]; cbn [Navigation.getCurrentSection_loop].
  - constructor.
  - cbv zeta.
    destruct (Js.geb pos (Navigation.offsetTop s)) eqn:E1;
      [destruct (Js.ltb pos (Navigation.offsetTop s + Navigation.offsetHeight s)) eqn:E2 |];
      cbn [andb].
    + exists [], rest. apply OrbFacts.geb_true in E1. apply ltb_true in E2.
      repeat split; auto.
    + apply ltb_false in E2.
      destruct (Navigation.getCurrentSection_loop pos rest) as [s0|].
      * destruct IH as (before & after & -> & Hc & Hb).
        exists (s :: before), after. repeat split; try apply Hc.
        constructor; [| exact Hb]. unfold Navigation.contains; lra.
      * constructor; [| exact IH]. unfold Navigation.contains; lra.
    + apply OrbFacts.geb_false in E1.
      destruct (Navigation.getCurrentSection_loop pos rest) as [s0|].
      * destruct IH as (before & after & -> & Hc & Hb).
        exists (s :: before), after. repeat split; try apply Hc.
        constructor; [| exact Hb]. unfold Navigation.contains; lra.
      * constructor; [| exact IH]. unfold Navigation.contains; lra.
Qed.

(** ** The theme controller *)

Module ThemeFacts.
Import Theme.
#[local] Open Scope string_scope.

Lemma is_theme_cases t : is_theme t = true -> t = "dark" \/ t = "light".
Proof.
  unfold is_theme; intros H. apply orb_prop in H as [H | H];
    apply String.eqb_eq in H; auto.
Qed.

Lemma in_classList_remove c d classes :
  In d (classList_remove c classes) <-> In d classes /\ d <> c.
Proof.
  unfold classList_remove. rewrite filter_In. split; intros [H1 H2]; split; auto.
  - apply negb_true_iff, String.eqb_neq in H2. congruence.
  - apply negb_true_iff, String.eqb_neq. congruence.
Qed.

Lemma in_classList_add c d classes :
  In d (classList_add c classes) <-> d = c \/ In d classes.
Proof.
  unfold classList_add. destruct (existsb (String.eqb c) classes) eqn:E.
  - apply existsb_exists in E as (x & Hx & Hcx). apply String.eqb_eq in Hcx; subst x.
    split; [auto | intros [-> | H]; auto].
  - rewrite in_app_iff; cbn.
    split; [intros [H | [H | []]]; auto | intros [-> | H]; auto].
Qed.

Ltac toggle_cases c :=
  unfold updateThemeToggle; cbv zeta;
  let Eh := fresh "Eh" in
  destruct (hasToggle c) eqn:Eh; cbn [negb];
  [ destruct (is_theme (currentTheme c));
    [| destruct (existsb (String.eqb (currentTheme c)) object_prototype_names) ]
  | ].

(** [updateThemeToggle] writes to the toggle only. *)
Lemma updateThemeToggle_keeps c :
  currentTheme (fst (updateThemeToggle c)) = currentTheme c /\
  storage (fst (updateThemeToggle c)) = storage c /\
  prefersDark (fst (updateThemeToggle c)) = prefersDark c /\
  hasToggle (fst (updateThemeToggle c)) = hasToggle c /\
  timers (fst (updateThemeToggle c)) = timers c /\
  bodyClasses (fst (updateThemeToggle c)) = bodyClasses c /\
  dispatched (fst (updateThemeToggle c)) = dispatched c.
Proof. toggle_cases c; repeat split; assumption. Qed.

Lemma updateThemeToggle_known c :
  is_theme (currentTheme c) = true -> snd (updateThemeToggle c) = Normal.
Proof. intros H. toggle_cases c; try reflexivity; discriminate. Qed.


(** The theme and the storage after [applyTheme], however it ends. *)
Lemma applyTheme_saves t c :
  currentTheme (fst (applyTheme t c)) = t /\
  storage (fst (applyTheme t c)) = Some t /\
  prefersDark (fst (applyTheme t c)) = prefersDark c /\
  hasToggle (fst (applyTheme t c)) = hasToggle c /\
  timers (fst (applyTheme t c)) = timers c.
Proof.
  unfold applyTheme.
  match goal with
  | |- context [updateThemeToggle ?c1] =>
      destruct (updateThemeToggle_keeps c1) as (H1 & H2 & H3 & H4 & H5 & _);
      destruct (updateThemeToggle c1) as [c2 [|]]
  end; cbn [fst] in *; cbn [announce currentTheme storage prefersDark hasToggle timers];
    rewrite ?H1, ?H2, ?H3, ?H4, ?H5; repeat split.
Qed.

Lemma applyTheme_known t c :
  is_theme t = true -> snd (applyTheme t c) = Normal.
Proof.
  intros H. unfold applyTheme.
  match goal with
  | |- context [updateThemeToggle ?c1] =>
      pose proof (updateThemeToggle_known c1 H) as Hn;
      destruct (updateThemeToggle c1) as [c2 r]
  end. cbn [snd] in Hn; subst r. reflexivity.
Qed.


Lemma applyTheme_classes t c :
  bodyClasses (fst (applyTheme t c)) =
  classList_add (String.append t "-theme")
    (classList_remove "light-theme" (classList_remove "dark-theme" (bodyClasses c))).
Proof.
  unfold applyTheme.
  match goal with
  | |- context [updateThemeToggle ?c1] =>
      destruct (updateThemeToggle_keeps c1) as (_ & _ & _ & _ & _ & H6 & _);
      destruct (updateThemeToggle c1) as [c2 [|]]
  end; cbn [fst] in *; cbn [announce bodyClasses]; rewrite H6; reflexivity.
Qed.

Lemma applyTheme_dispatches t c :
  is_theme t = true ->
  dispatched (fst (applyTheme t c)) = (t, opposite t) :: dispatched c.
Proof.
  intros H. unfold applyTheme.
  match goal with
  | |- context [updateThemeToggle ?c1] =>
      destruct (updateThemeToggle_keeps c1) as (H1 & _ & _ & _ & _ & _ & H7);
      pose proof (updateThemeToggle_known c1 H) as Hn;
      destruct (updateThemeToggle c1) as [c2 r]
  end. cbn [fst snd] in *. subst r.
  cbn [fst announce dispatched]. rewrite H1, H7. reflexivity.
Qed.

Lemma systemTheme_is_theme m : is_theme (systemTheme m) = true.
Proof. destruct m; reflexivity. Qed.

(** What every state of a session satisfies: the storage holds the current
    theme, which is not empty, and the pending timers carry themes. *)
Definition saved (c : Controller) : Prop :=
  storage c = Some (currentTheme c) /\ currentTheme c <> "" /\
  Forall (fun t => match t with
                   | ApplyNewTheme n => is_theme n = true
                   | EndTransition => True
                   end) (timers c).

Lemma is_theme_nonempty t : is_theme t = true -> t <> "".
Proof. intros H; apply is_theme_cases in H as [-> | ->]; discriminate. Qed.

Lemma applyTheme_saved t c :
  t <> "" ->
  Forall (fun t => match t with
                   | ApplyNewTheme n => is_theme n = true
                   | EndTransition => True
                   end) (timers c) ->
  saved (fst (applyTheme t c)).
Proof.
  intros Ht Hc. destruct (applyTheme_saves t c) as (H1 & H2 & _ & _ & H5).
  unfold saved. rewrite H1, H2, H5. auto.
Qed.

Lemma truthy_saved c : saved c -> truthy (storage c) = true.
Proof.
  intros (H1 & H2 & _). rewrite H1. cbn.
  apply negb_true_iff, String.eqb_neq. exact H2.
Qed.

Lemma construct_saved st dark tog classes :
  saved (fst (construct st dark tog classes)).
Proof.
  unfold construct.
  set (c0 := {| currentTheme := "dark"; storage := st; prefersDark := dark;
                hasToggle := tog; bodyClasses := classes; toggleShows := None;
                toggleLabel := None; metaThemeColor := None; dispatched := [];
                timers := [] |}).
  assert (H : saved (fst (loadSavedTheme c0))).
  { unfold loadSavedTheme. apply applyTheme_saved; [| constructor].
    cbn. destruct st as [s|]; [| destruct dark; discriminate].
    cbn. destruct (String.eqb s "") eqn:E; cbn.
    - destruct dark; discriminate.
    - now apply String.eqb_neq. }
  destruct (loadSavedTheme c0) as [c1 [|]]; cbn [fst] in *; [| exact H].
  destruct (updateThemeToggle_keeps c1) as (K1 & K2 & _ & _ & K5 & _).
  destruct H as (H1 & H2 & H3). unfold saved. rewrite K1, K2, K5. auto.
Qed.

Lemma firstn_In_l {A} (a : A) i l : In a (firstn i l) -> In a l.
Proof.
  revert l; induction i as [|i IH]; intros [|h l]; cbn; try tauto.
  intros [-> | H]; auto.
Qed.

Lemma skipn_In_l {A} (a : A) i l : In a (skipn i l) -> In a l.
Proof.
  revert l; induction i as [|i IH]; intros [|h l]; cbn; try tauto.
  intros H; right; auto.
Qed.

Lemma Forall_remove_nth {A} (P : A -> Prop) i l :
  Forall P l -> Forall P (firstn i l ++ skipn (S i) l)%list.
Proof.
  intros H. rewrite Forall_forall in *. intros a Ha.
  apply in_app_iff in Ha as [Ha | Ha]; apply H.
  - eapply firstn_In_l; exact Ha.
  - eapply skipn_In_l; exact Ha.
Qed.

Lemma handle_saved e c : saved c -> saved (fst (handle e c)).
Proof.
  intros Hc. pose proof Hc as (H1 & H2 & H3). destruct e; cbn [handle].
  - cbn. repeat split; auto. apply Forall_app; split; [exact H3 |].
    constructor; [| constructor]. destruct (String.eqb _ "dark"); reflexivity.
  - destruct (nth_error (timers c) i) as [t|] eqn:E; [| exact Hc].
    assert (Ht : match t with
                 | ApplyNewTheme n => is_theme n = true
                 | EndTransition => True
                 end).
    { rewrite Forall_forall in H3. apply H3. eapply nth_error_In; exact E. }
    pose proof (Forall_remove_nth _ i _ H3) as H3'.
    destruct t as [n|]; cbn [fire].
    + set (c' := set_timers c (bodyClasses c) _).
      pose proof (applyTheme_saved n c' (is_theme_nonempty n Ht) H3') as Hs.
      destruct (applyTheme n c') as [c1 [|]]; cbn [fst] in *; [| exact Hs].
      destruct Hs as (S1 & S2 & S3). cbn. repeat split; auto.
      apply Forall_app; split; [exact S3 | repeat constructor].
    + cbn. repeat split; auto.
  - unfold systemChange.
    set (c1 := {| currentTheme := currentTheme c; storage := storage c;
                  prefersDark := matches; hasToggle := hasToggle c;
                  bodyClasses := bodyClasses c; toggleShows := toggleShows c;
                  toggleLabel := toggleLabel c; metaThemeColor := metaThemeColor c;
                  dispatched := dispatched c; timers := timers c |}).
    assert (Hs : saved c1) by (repeat split; auto).
    rewrite (truthy_saved c1 Hs). exact Hs.
  - unfold resetToDefaults.
    apply applyTheme_saved; [apply is_theme_nonempty, systemTheme_is_theme |].
    exact H3.
Qed.

Lemma run_saved es : forall c, saved c -> saved (run es c).
Proof.
  induction es as [|e es IH]; intros c Hc; [exact Hc |].
  cbn. apply IH. now apply handle_saved.
Qed.

Lemma toggleTheme_state c :
  currentTheme (toggleTheme c) = currentTheme c /\
  timers (toggleTheme c)
  = (timers c ++ [ApplyNewTheme (opposite (currentTheme c))])%list.
Proof. split; reflexivity. Qed.

Lemma fire_apply n c :
  is_theme n = true ->
  currentTheme (fst (fire (ApplyNewTheme n) c)) = n /\
  timers (fst (fire (ApplyNewTheme n) c)) = (timers c ++ [EndTransition])%list.
Proof.
  intros Hn. cbn [fire].
  destruct (applyTheme_saves n c) as (H1 & _ & _ & _ & H5).
  pose proof (applyTheme_known n c Hn) as Hk.
  destruct (applyTheme n c) as [c1 r]. cbn [fst snd] in *. subst r.
  cbn. rewrite H5. auto.
Qed.

Lemma handle_fire_first c t rest :
  timers c = t :: rest ->
  handle (Fire 0) c = fire t (set_timers c (bodyClasses c) rest).
Proof. intros H. cbn [handle]. rewrite H. reflexivity. Qed.

Lemma opposite_is_theme t : is_theme (opposite t) = true.
Proof. unfold opposite. destruct (String.eqb t "dark"); reflexivity. Qed.

End ThemeFacts.

(** X22. [applyTheme] with ['dark'] or ['light'] returns normally and
    leaves that theme current and stored, the body with the class of that
    theme and without the class of the other, and a [themeChange] event
    dispatched for it. *)
Theorem applyTheme_known_theme (t : string) (c : Theme.Controller) :
  Theme.is_theme t = true ->
  snd (Theme.applyTheme t c) = Theme.Normal /\
  Theme.currentTheme (fst (Theme.applyTheme t c)) = t /\
  Theme.storage (fst (Theme.applyTheme t c)) = Some t /\
  In (String.append t "-theme") (Theme.bodyClasses (fst (Theme.applyTheme t c))) /\
  ~ In (String.append (Theme.opposite t) "-theme")
       (Theme.bodyClasses (fst (Theme.applyTheme t c))) /\
  hd_error (Theme.dispatched (fst (Theme.applyTheme t c)))
  = Some (t, Theme.opposite t).
Proof.
  intros Ht.
  destruct (ThemeFacts.applyTheme_saves t c) as (H1 & H2 & _).
  split; [now apply ThemeFacts.applyTheme_known |].
  split; [exact H1 |]. split; [exact H2 |].
  rewrite ThemeFacts.applyTheme_classes. split; [| split].
  - apply ThemeFacts.in_classList_add. now left.
  - rewrite ThemeFacts.in_classList_add, !ThemeFacts.in_classList_remove.
    destruct (ThemeFacts.is_theme_cases t Ht) as [-> | ->]; cbn;
      intros [H | (( _ & H) & H')]; try discriminate H; congruence.
  - now rewrite ThemeFacts.applyTheme_dispatches.
Qed.

Lemma applyTheme_known_theme_witness :
  Theme.is_theme "light" = true /\
  Theme.currentTheme
    (fst (Theme.applyTheme "light"
            (fst (Theme.construct None true true ["dark-theme"%string]))))
  = "light"%string.
Proof.
  split; [reflexivity |].
  exact (proj1 (proj2 (applyTheme_known_theme "light"
    (fst (Theme.construct None true true ["dark-theme"%string])) eq_refl))).
Defined.



(** X24. In every state of every session the stored theme is the current
    theme, so the listener of the system preference never switches the
    theme: a change of the preference leaves the theme, the storage, the
    body classes and the dispatched events as they are. *)
Theorem system_preference_never_followed
    (saved0 : option string) (dark hasToggle0 : bool) (classes : list string)
    (es : list Theme.Event) (matches : bool) :
  let c := Theme.run es (fst (Theme.construct saved0 dark hasToggle0 classes)) in
  let c' := fst (Theme.systemChange matches c) in
  Theme.storage c = Some (Theme.currentTheme c) /\
  snd (Theme.systemChange matches c) = Theme.Normal /\
  Theme.currentTheme c' = Theme.currentTheme c /\
  Theme.storage c' = Theme.storage c /\
  Theme.bodyClasses c' = Theme.bodyClasses c /\
  Theme.dispatched c' = Theme.dispatched c.
Proof.
  cbv zeta.
  pose proof (ThemeFacts.run_saved es _
                (ThemeFacts.construct_saved saved0 dark hasToggle0 classes)) as H.
  set (c := Theme.run es _) in *.
  split; [apply H |].
  unfold Theme.systemChange.
  match goal with
  | |- context [Theme.truthy (Theme.storage ?c1)] =>
      assert (E : Theme.truthy (Theme.storage c1) = true)
        by (apply (ThemeFacts.truthy_saved c H))
  end.
  rewrite E. cbn. repeat split.
Qed.

(** X25. One toggle, once its timer has run, makes the theme ['light'] if
    it was ['dark'] and ['dark'] otherwise. Two toggles made before the
    first timer runs both carry the same new theme: together they switch
    the theme once, not back. *)
Theorem toggle_switches_once (c : Theme.Controller) :
  Theme.timers c = [] ->
  Theme.currentTheme (Theme.run [Theme.Toggle; Theme.Fire 0] c)
  = Theme.opposite (Theme.currentTheme c) /\
  Theme.currentTheme
    (Theme.run [Theme.Toggle; Theme.Toggle; Theme.Fire 0; Theme.Fire 0] c)
  = Theme.opposite (Theme.currentTheme c).
Proof.
  intros Ht.
  set (n := Theme.opposite (Theme.currentTheme c)).
  pose proof (ThemeFacts.opposite_is_theme (Theme.currentTheme c)) as Hn.
  fold n in Hn.
  destruct (ThemeFacts.toggleTheme_state c) as [T1 T2].
  rewrite Ht in T2; cbn [app] in T2; fold n in T2.
  cbn [Theme.run]. change (fst (Theme.handle Theme.Toggle c)) with (Theme.toggleTheme c).
  split.
  - rewrite (ThemeFacts.handle_fire_first _ _ _ T2).
    apply ThemeFacts.fire_apply; exact Hn.
  - set (c1 := Theme.toggleTheme c) in *.
    change (fst (Theme.handle Theme.Toggle c1)) with (Theme.toggleTheme c1).
    destruct (ThemeFacts.toggleTheme_state c1) as [U1 U2].
    rewrite T1 in U2. rewrite T2 in U2. cbn [app] in U2. fold n in U2.
    rewrite (ThemeFacts.handle_fire_first _ _ _ U2).
    match goal with
    | |- context [Theme.fire (Theme.ApplyNewTheme n) ?c0] =>
        destruct (ThemeFacts.fire_apply n c0 Hn) as [_ F2];
        set (c3 := fst (Theme.fire (Theme.ApplyNewTheme n) c0)) in *
    end.
    cbn [Theme.timers Theme.set_timers app] in F2.
    rewrite (ThemeFacts.handle_fire_first _ _ _ F2).
    apply ThemeFacts.fire_apply; exact Hn.
Qed.

Lemma toggle_switches_once_witness :
  Theme.timers (fst (Theme.construct None true true [])) = [] /\
  Theme.currentTheme
    (Theme.run [Theme.Toggle; Theme.Toggle; Theme.Fire 0; Theme.Fire 0]
       (fst (Theme.construct None true true [])))
  = Theme.opposite (Theme.currentTheme (fst (Theme.construct None true true []))).
Proof.
  split; [reflexivity |].
  exact (proj2 (toggle_switches_once (fst (Theme.construct None true true []))
                  eq_refl)).
Defined.

(** X26. The stored theme survives a reload: after any session, a new
    controller made on the storage the session left has the theme the
    session ended with, whatever the system preference is by then. *)
Theorem theme_survives_reload
    (saved0 : option string) (dark hasToggle0 : bool) (classes : list string)
    (es : list Theme.Event) (dark' hasToggle' : bool) (classes' : list string) :
  let c := Theme.run es (fst (Theme.construct saved0 dark hasToggle0 classes)) in
  Theme.currentTheme
    (fst (Theme.construct (Theme.storage c) dark' hasToggle' classes'))
  = Theme.currentTheme c.
Proof.
  cbv zeta.
  pose proof (ThemeFacts.run_saved es _
                (ThemeFacts.construct_saved saved0 dark hasToggle0 classes)) as H.
  set (c := Theme.run es _) in *.
  destruct H as (H1 & H2 & _). rewrite H1.
  unfold Theme.construct, Theme.loadSavedTheme. cbn [Theme.storage Theme.truthy].
  apply String.eqb_neq in H2. rewrite H2. cbn [negb].
  match goal with
  | |- context [Theme.applyTheme ?t ?c0] =>
      destruct (ThemeFacts.applyTheme_saves t c0) as (E & _);
      destruct (Theme.applyTheme t c0) as [c1 [|]]
  end; cbn [fst] in *; [| exact E].
  destruct (ThemeFacts.updateThemeToggle_keeps c1) as (K1 & _). now rewrite K1.
Qed.

(** ** The application and its particle component *)

Module AppFacts.
Import App.

Lemma construct_length w src k :
  List.length (particles (fst (fst (construct w src k)))) = getParticleCount w.
Proof.
  rewrite construct_particles, !length_map, length_seq. reflexivity.
Qed.

(** The particle component exists exactly on a window at least 768 px
    wide, on hardware that is not low-end, without the reduced-motion
    preference, with the canvas in the page. *)
Definition particles_enabled (w : Window) (h : Host) : bool :=
  negb (isLowEnd w) && negb (innerWidth w <? 768)%nat
  && negb (reducedMotion h) && hasParticlesCanvas h.

Lemma initializeParticles_cases w h src k :
  if particles_enabled w h
  then fst (initializeParticles w h src k) = Some (fst (fst (construct w src k)))
  else fst (initializeParticles w h src k) = None.
Proof.
  unfold particles_enabled, initializeParticles, detectDeviceCapabilities.
  cbn [lowEnd isMobile prefersReducedMotion].
  destruct (isLowEnd w); cbn [negb andb orb snd enableParticles]; [reflexivity |].
  destruct (innerWidth w <? 768)%nat; cbn [negb andb orb snd enableParticles];
    [reflexivity |].
  destruct (reducedMotion h); cbn [negb andb orb snd enableParticles initialConfig];
    [reflexivity |].
  destruct (hasParticlesCanvas h); [| reflexivity].
  unfold Random.bind. destruct (construct w src k) as [[s o] k1]. reflexivity.
Qed.

End AppFacts.

(** X27. A window is a mobile, a tablet or a desktop window, exactly one of
    the three. [PortfolioApp] creates the particle component only on a
    window at least 768 px wide, on hardware that is not low-end, without
    the reduced-motion preference and with the canvas in the page; the
    component then starts with 50 particles below 1024 px and 80 from
    there on, never with the 30 of the low tier. *)
Theorem app_particle_tiers (w : Window) (h : App.Host) (src : nat -> R) (k : nat) :
  (let caps := fst (App.detectDeviceCapabilities w h App.initialConfig) in
   (App.isMobile caps, App.isTablet caps, App.isDesktop caps) = (true, false, false) \/
   (App.isMobile caps, App.isTablet caps, App.isDesktop caps) = (false, true, false) \/
   (App.isMobile caps, App.isTablet caps, App.isDesktop caps) = (false, false, true)) /\
  match fst (App.initializeParticles w h src k) with
  | Some s =>
      (768 <= innerWidth w)%nat /\ isLowEnd w = false /\
      App.reducedMotion h = false /\ App.hasParticlesCanvas h = true /\
      List.length (particles s)
      = (if (innerWidth w <? 1024)%nat then 50 else 80)%nat
  | None =>
      (innerWidth w < 768)%nat \/ isLowEnd w = true \/
      App.reducedMotion h = true \/ App.hasParticlesCanvas h = false
  end.
Proof.
  split.
  - unfold App.detectDeviceCapabilities.
    destruct (_ || _ || _);
      cbn [fst App.isMobile App.isTablet App.isDesktop];
      destruct (Nat.ltb_spec (innerWidth w) 768);
      destruct (Nat.leb_spec 768 (innerWidth w));
      destruct (Nat.ltb_spec (innerWidth w) 1024);
      destruct (Nat.leb_spec 1024 (innerWidth w)); cbn [andb]; auto; lia.
  - pose proof (AppFacts.initializeParticles_cases w h src k) as H.
    unfold AppFacts.particles_enabled in H.
    destruct (isLowEnd w) eqn:El; cbn [negb andb] in H;
      [rewrite H; auto |].
    destruct (innerWidth w <? 768)%nat eqn:Em; cbn [negb andb] in H;
      [rewrite H; left; now apply Nat.ltb_lt |].
    destruct (App.reducedMotion h) eqn:Er; cbn [negb andb] in H;
      [rewrite H; auto |].
    destruct (App.hasParticlesCanvas h) eqn:Ec; [| rewrite H; auto].
    rewrite H. apply Nat.ltb_ge in Em.
    repeat split; auto.
    rewrite AppFacts.construct_length. unfold getParticleCount.
    rewrite El. rewrite (proj2 (Nat.ltb_ge _ _) Em). reflexivity.
Qed.

(** X28. When [PortfolioApp] has created the particle component, its
    handlers of window blur, window focus and visibility change throw a
    [TypeError]: they call [pause()] and [resume()], which
    [ParticleSystem] does not have. Without the component they return. *)
Theorem app_focus_handlers_throw
    (w : Window) (h : App.Host) (src : nat -> R) (k : nat) (hidden : bool) :
  let component := fst (App.initializeParticles w h src k) in
  let expected :=
    if negb (isLowEnd w) && negb (innerWidth w <? 768)%nat
       && negb (App.reducedMotion h) && App.hasParticlesCanvas h
    then App.ThrewTypeError else App.Returned in
  App.handleWindowBlur component = expected /\
  App.handleWindowFocus component = expected /\
  App.handleVisibilityChange hidden component = expected.
Proof.
  cbv zeta.
  pose proof (AppFacts.initializeParticles_cases w h src k) as H.
  change (negb (isLowEnd w) && negb (innerWidth w <? 768)%nat
          && negb (App.reducedMotion h) && App.hasParticlesCanvas h)
    with (AppFacts.particles_enabled w h).
  destruct (AppFacts.particles_enabled w h); rewrite H;
    destruct hidden; repeat split.
Qed.

(** ** The animation switcher *)

(** X29. With the profile element present and an index below 5, a key
    press moves to the next of the five animations and five presses come
    back to the starting one; [switchToAnimation] with the name at index
    [i] makes [i] the current index, and with a name that is no animation
    it does nothing. Without the profile element neither method does
    anything. *)
Theorem animation_switcher_cycles (s : Switcher.State) :
  Switcher.hasProfileElement s = true ->
  (Switcher.currentIndex s < 5)%nat ->
  Switcher.currentIndex (fst (Switcher.switchToNextAnimation s))
  = ((Switcher.currentIndex s + 1) mod 5)%nat /\
  Nat.iter 5 (fun s' => fst (Switcher.switchToNextAnimation s')) s = s /\
  (forall i, (i < 5)%nat ->
     Switcher.currentIndex
       (fst (Switcher.switchToAnimation (Switcher.animationAt i) s)) = i) /\
  (forall name, ~ In name Switcher.animations ->
     Switcher.switchToAnimation name s = (s, [])) /\
  (forall s' name, Switcher.hasProfileElement s' = false ->
     Switcher.switchToNextAnimation s' = (s', []) /\
     Switcher.switchToAnimation name s' = (s', [])).
Proof.
  intros Hp Hi. destruct s as [i p]. cbn in Hp, Hi. subst p.
  split; [reflexivity |]. split.
  - unfold Switcher.switchToNextAnimation.
    cbn [Nat.iter nat_rect Switcher.hasProfileElement negb fst
         Switcher.currentIndex].
    do 5 (destruct i as [|i]; [reflexivity |]). lia.
  - split; [| split].
    + intros j Hj. do 5 (destruct j as [|j]; [reflexivity |]). lia.
    + intros name Hn. unfold Switcher.switchToAnimation.
      cbn [Switcher.hasProfileElement negb].
      assert (E : Switcher.indexOf name Switcher.animations = None).
      { revert Hn. generalize Switcher.animations as l.
        induction l as [|a l IH]; intros Hn; [reflexivity |].
        cbn [Switcher.indexOf].
        destruct (String.eqb a name) eqn:Ea.
        - apply String.eqb_eq in Ea. exfalso. apply Hn. now left.
        - rewrite IH; [reflexivity |]. intros H; apply Hn; now right. }
      rewrite E. reflexivity.
    + intros s' name Hs'. unfold Switcher.switchToNextAnimation,
        Switcher.switchToAnimation. rewrite Hs'. split; reflexivity.
Qed.

Lemma animation_switcher_cycles_witness :
  Switcher.hasProfileElement
    {| Switcher.currentIndex := 3; Switcher.hasProfileElement := true |} = true /\
  (3 < 5)%nat /\
  Nat.iter 5 (fun s' => fst (Switcher.switchToNextAnimation s'))
    {| Switcher.currentIndex := 3; Switcher.hasProfileElement := true |}
  = {| Switcher.currentIndex := 3; Switcher.hasProfileElement := true |}.
Proof.
  assert (H : (3 < 5)%nat) by lia.
  split; [reflexivity |]. split; [exact H |].
  exact (proj1 (proj2 (animation_switcher_cycles
    {| Switcher.currentIndex := 3; Switcher.hasProfileElement := true |}
    eq_refl H))).
Defined.

(** ** The cursor trails *)

Module CursorFacts.
Import Cursor.

Lemma in_detach e n nodes : In n (detach e nodes) <-> In n nodes /\ n <> e.
Proof.
  unfold detach. rewrite filter_In. split; intros [H1 H2]; split; auto.
  - apply negb_true_iff, Nat.eqb_neq in H2. exact H2.
  - apply negb_true_iff, Nat.eqb_neq. exact H2.
Qed.

(** [findIndex] finds the first trail of the element, or none holds it. *)
Lemma findIndex_spec e array :
  match findIndex e array with
  | Some index =>
      exists before t after,
        array = (before ++ t :: after)%list /\ List.length before = index /\
        element t = e /\ ~ In e (map element before)
  | None => ~ In e (map element array)
  end.
Proof.
  induction array as [|t rest IH]; cbn [findIndex].
  - intros [].
  - destruct (Nat.eqb (element t) e) eqn:E.
    + apply Nat.eqb_eq in E. exists [], t, rest. cbn. auto.
    + apply Nat.eqb_neq in E.
      destruct (findIndex e rest) as [i|]; cbn [option_map].
      * destruct IH as (before & t' & after & -> & <- & Ht & Hb).
        exists (t :: before), t', after. cbn. repeat split; auto.
        intros [H | H]; auto.
      * cbn. intros [H | H]; auto.
Qed.

(** [removeFromArray] removes the first trail of the element and nothing
    else. *)
Lemma removeFromArray_spec e array :
  (exists before t after,
     array = (before ++ t :: after)%list /\ element t = e /\
     ~ In e (map element before) /\
     removeFromArray array e = (before ++ after)%list) \/
  (~ In e (map element array) /\ removeFromArray array e = array).
Proof.
  unfold removeFromArray. pose proof (findIndex_spec e array) as H.
  destruct (findIndex e array) as [i|].
  - destruct H as (before & t & after & -> & <- & Ht & Hb).
    left. exists before, t, after. repeat split; auto.
    apply ExplosionFacts.splice1_middle.
  - right. auto.
Qed.

(** What holds of the trails at any time: at most [maxTrails] of them, no
    element twice, every element older than the next one to be made, and
    the trail elements in the document are those of the trails. *)
Definition in_step (s : State) : Prop :=
  (List.length (trails s) <= maxTrails)%nat /\
  NoDup (map element (trails s)) /\
  (forall e, In e (map element (trails s)) -> (e < created s)%nat) /\
  (forall e, In e (attached s) <-> In e (map element (trails s))).

Lemma in_step_initial : in_step initial.
Proof.
  unfold in_step, initial, maxTrails; cbn. repeat split; try tauto; try lia.
  constructor.
Qed.

Lemma NoDup_app_one (l : list nat) a : NoDup l -> ~ In a l -> NoDup (l ++ [a]).
Proof.
  intros Hl Ha. apply NoDup_app; auto.
  - repeat constructor. intros [].
  - intros b Hb [<- | []]. contradiction.
Qed.

Lemma pushTrail_in_step c s : in_step s -> in_step (pushTrail c s).
Proof.
  intros (Hlen & Hnd & Hold & Hatt). unfold pushTrail; cbv zeta.
  set (new := {| element := created s; life := 1; color := c |}).
  assert (Hfresh : ~ In (created s) (map element (trails s))).
  { intros H. apply Hold in H. lia. }
  assert (Hnd1 : NoDup (map element (trails s ++ [new]))).
  { rewrite map_app. cbn [map]. now apply NoDup_app_one. }
  assert (Hatt1 : forall e, In e (attached s ++ [created s])
                            <-> In e (map element (trails s ++ [new]))).
  { intros e. rewrite map_app, !in_app_iff, Hatt. cbn. tauto. }
  assert (Hold1 : forall e, In e (map element (trails s ++ [new]))
                            -> (e < S (created s))%nat).
  { intros e. rewrite map_app, in_app_iff. cbn.
    intros [H | [<- | []]]; [apply Hold in H |]; lia. }
  assert (Hlen1 : List.length (trails s ++ [new]) = S (List.length (trails s))).
  { rewrite length_app. cbn. lia. }
  destruct (maxTrails <? List.length (trails s ++ [new]))%nat eqn:E.
  - destruct (trails s ++ [new])%list as [|old rest] eqn:El; [cbn in Hlen1; lia |].
    unfold in_step. cbn [trails attached created].
    cbn [map] in Hnd1, Hatt1, Hold1.
    inversion Hnd1 as [|? ? Hnotin Hnd2]; subst.
    cbn [List.length] in Hlen1. repeat split.
    + lia.
    + exact Hnd2.
    + intros e He. apply Hold1. now right.
    + rewrite in_detach, Hatt1. cbn. intros [[H | H] Hne]; congruence.
    + intros He. rewrite in_detach, Hatt1. cbn. split; [now right |].
      intros ->. contradiction.
  - apply Nat.ltb_ge in E. unfold in_step. cbn [trails attached created].
    repeat split; auto.
    + apply Hatt1.
    + apply Hatt1.
Qed.

Lemma trailTimer_in_step e s : in_step s -> in_step (trailTimer e s).
Proof.
  intros (Hlen & Hnd & Hold & Hatt). unfold trailTimer, in_step.
  cbn [trails attached created].
  destruct (removeFromArray_spec e (trails s))
    as [(before & t & after & E & Ht & Hb & ->) | [Hno ->]].
  - rewrite E in *. rewrite map_app in *. cbn [map] in *.
    rewrite length_app in *. cbn [List.length] in Hlen.
    pose proof (NoDup_remove_1 _ _ _ Hnd) as Hnd'.
    pose proof (NoDup_remove_2 _ _ _ Hnd) as Hnot.
    repeat split.
    + lia.
    + exact Hnd'.
    + intros x Hx. apply Hold. rewrite in_app_iff in *. cbn. tauto.
    + rewrite in_detach, Hatt, !in_app_iff. cbn.
      intros [[H | [H | H]] Hne]; auto. congruence.
    + intros Hx. rewrite in_detach, Hatt, in_app_iff. cbn.
      rewrite in_app_iff in Hx. split; [tauto |].
      intros ->. apply Hnot. rewrite in_app_iff.
      rewrite Ht in Hnot. rewrite Ht. tauto.
  - repeat split; auto.
    + rewrite in_detach, Hatt. tauto.
    + intros Hx. rewrite in_detach, Hatt. split; [exact Hx |].
      intros ->. contradiction.
Qed.

Lemma in_detach_all ts : forall nodes n,
  In n (fold_left (fun nodes trail => detach (element trail) nodes) ts nodes)
  <-> In n nodes /\ ~ In n (map element ts).
Proof.
  induction ts as [|t ts IH]; intros nodes n; cbn [fold_left map].
  - cbn. tauto.
  - rewrite IH, in_detach. cbn. intuition congruence.
Qed.

Lemma removeCursor_in_step s : in_step s -> in_step (removeCursor s).
Proof.
  intros (Hlen & Hnd & Hold & Hatt). unfold removeCursor, in_step.
  cbn [trails attached created map List.length]. repeat split.
  - lia.
  - constructor.
  - intros e [].
  - rewrite in_detach_all, Hatt. tauto.
  - intros [].
Qed.

Lemma handle_in_step e s src k : in_step s -> in_step (fst (handle e s src k)).
Proof.
  intros H. destruct e; cbn.
  - now apply pushTrail_in_step.
  - now apply pushTrail_in_step.
  - now apply trailTimer_in_step.
  - now apply removeCursor_in_step.
Qed.

Lemma run_in_step es : forall s src k, in_step s -> in_step (fst (run es s src k)).
Proof.
  induction es as [|e es IH]; intros s src k H; [exact H |].
  cbn [run]. unfold Random.bind.
  pose proof (handle_in_step e s src k H) as H1.
  destruct (handle e s src k) as [s1 k1]. cbn [fst] in H1.
  now apply IH.
Qed.

End CursorFacts.

(** X30. Whatever trails are made, whatever timers run and whenever the
    cursor is removed, in any order, there are never more than 12 trails;
    no element is in the array twice;
    and the trail elements in the document are exactly those of the
    array, so every element that leaves the array, shifted out or removed
    by its timer, has left the document. *)
Theorem trails_stay_bounded (es : list Cursor.Event) (src : nat -> R) (k : nat) :
  let s := fst (Cursor.run es Cursor.initial src k) in
  (List.length (Cursor.trails s) <= 12)%nat /\
  NoDup (map Cursor.element (Cursor.trails s)) /\
  (forall e, In e (Cursor.attached s)
             <-> In e (map Cursor.element (Cursor.trails s))).
Proof.
  cbv zeta.
  destruct (CursorFacts.run_in_step es Cursor.initial src k
              CursorFacts.in_step_initial) as (H1 & H2 & _ & H4).
  repeat split; auto; apply H4.
Qed.

(** ** The concrete inputs in binary64 *)

Module Binary64.
Import Floats.
#[local] Set Warnings "-inexact-float".

(** The left edge: with the draw 0 the particle is created at [x = 0] with
    [vx = -0.25]; the step moves it to [-0.25 < 0], sets [x] to the width
    800, and [800 > 800] is false. *)
Example left_edge_wraps_to_width :
  (0 * 800 =? 0)%float = true /\
  ((0 - 0.5) * 0.5 =? -0.25)%float = true /\
  (0 + -0.25 <? 0)%float = true /\
  (800 <? 800)%float = false.
Proof. repeat split; vm_compute; reflexivity. Qed.

(** The pulse: the draws 0.99375 and 0.28125 give the opacity 0.796875 and the
    delta 0.015625; their sum 0.8125 is above 0.8. *)
Example opacity_overshoots :
  (0.99375 * 0.5 + 0.3 =? 0.796875)%float = true /\
  (0.28125 * 0.02 + 0.01 =? 0.015625)%float = true /\
  (0.796875 + 0.015625 =? 0.8125)%float = true /\
  (0.8 <? 0.8125)%float = true.
Proof. repeat split; vm_compute; reflexivity. Qed.

(** The threshold: the distance of (0, 0) and (120, 0) is 120, not below 120. *)
Example distance_at_threshold :
  (sqrt ((0 - 120) * (0 - 120) + (0 - 0) * (0 - 0)) =? 120)%float = true /\
  (sqrt ((0 - 120) * (0 - 120) + (0 - 0) * (0 - 0)) <? 120)%float = false.
Proof. repeat split; vm_compute; reflexivity. Qed.

(** The burst: the decay is 0.015625; the life, 1 at first and decreased by the
    decay on each step, is 0.015625 after 63 steps and 0 after 64. *)
Example life_runs_out_at_64 :
  (0.28125 * 0.02 + 0.01 =? 0.015625)%float = true /\
  (Nat.iter 63 (fun life => life - 0.015625) 1 =? 0.015625)%float = true /\
  (Nat.iter 64 (fun life => life - 0.015625) 1 <=? 0)%float = true.
Proof. repeat split; vm_compute; reflexivity. Qed.

End Binary64.
